(** * terminal-radio: the playback process lifecycle manager

    A shallow embedding of [src/radio-player.ts] (class [RadioPlayer]) and
    the properties of it that the specification states.

    The class is stateful and talks to the operating system (child
    processes, signals, [pgrep], timers, the console, an HTTP directory).
    It is embedded as code in a small state-and-exception monad over a
    [World]: the fields of the single [RadioPlayer] object, the heap of
    [ChildProcess] objects that [spawn] has returned, the queue of pending
    timers, and the trace of effects performed so far.  Everything the
    environment decides (does [spawn] throw, which pid does it return, does
    [process.kill] throw, what does [pgrep] print, what does the directory
    answer) is drawn from an [Env], whose answers may depend on the whole
    trace so far; the theorems quantify over every [Env]. *)

From Stdlib Require Import ZArith NArith Lia Ascii String.
From Stdlib Require Import DecimalString DecimalPos DecimalN.
From stdpp Require Import base list strings.

Local Open Scope string_scope.
Local Open Scope list_scope.

(** * Data model *)

(** Modelled from the spec: [src/types.ts] is not among the sources.  The
    record follows the spec's Station (name, stream URL, optional genre,
    country, bitrate, codec) and the object literal built in
    [searchStations].  A field of a JavaScript object that may be
    [undefined] is an [option]; [url] is one of them because the search
    mapping can leave it undefined. *)
Record RadioStation := {
  name : string;
  url : option string;
  genre : option string;
  country : option string;
  bitrate : option Z;
  codec : option string
}.

(** Modelled from the spec: [src/types.ts] is not among the sources.  One
    entry of the directory's JSON answer, with the fields that
    [searchStations] reads.  The answer is parsed JSON, so the two URL
    fields may be missing at run time. *)
Module RadioBrowserStation.
Record t := {
  name : string;
  url : option string;
  url_resolved : option string;
  tags : option string;
  country : option string;
  bitrate : option Z;
  codec : option string;
  lastcheckok : Z
}.
End RadioBrowserStation.

(** The [params] object of the two [axios.get] calls. *)
Record SearchParams := {
  param_name : option string;
  param_tag : option string;
  param_limit : Z;
  param_hidebroken : bool;
  param_order : string;
  param_reverse : bool
}.

Inductive Signal := SIGTERM | SIGKILL.

(** A thrown JavaScript value: an [Error] with its message. *)
Inductive Exn := JsError (message : string).

Definition message (e : Exn) : string := match e with JsError m => m end.

(** What the program does to the outside world, in the order it does it. *)
Inductive Effect :=
| Spawn (cmd : string) (args : list (option string))
| ProcessKill (target : Z) (sig : Signal)
| ExecSync (cmd : string)
| SetTimeout (ms : Z)
| ConsoleLog (args : list string)
| ConsoleError (args : list string)
| AxiosGet (endpoint : string) (params : SearchParams).

(** The closures that the class registers with [ChildProcess.on]. *)
Inductive ErrorListener :=
| PlayOnError (station : RadioStation)   (* play, lines 35-42 *)
| TryVLCOnError.                         (* tryVLC, lines 80-88 *)

Inductive ExitListener :=
| OnExit.                                (* lines 44-48 and 90-94 *)

(** A [ChildProcess] object of Node.  [killed] is Node's flag: it is set by
    [ChildProcess.kill()] alone, and does not tell whether the process has
    terminated.  [exited] records that the runtime has emitted ['exit'] on
    the object. *)
Record ChildProcess := {
  pid : option Z;
  killed : bool;
  exited : bool;
  onError : list ErrorListener;
  onExit : list ExitListener
}.

(** The callbacks given to [setTimeout]; all of them with a delay of 1000. *)
Inductive Timer :=
| PlayResume (station : RadioStation)    (* play, after the await, lines 53-55 *)
| KillCurrentGroup                       (* killAllProcesses, lines 170-178 *)
| KillGroup (pid : Z).                   (* killAllProcesses, lines 192-198 *)

(** The fields of the [RadioPlayer] object; [currentProcess] is a reference
    into the heap of [ChildProcess] objects. *)
Record RadioPlayer := {
  currentProcess : option nat;
  currentStation : option RadioStation;
  processIds : list Z
}.

Record World := {
  this : RadioPlayer;
  heap : list ChildProcess;
  timers : list Timer;
  trace : list Effect
}.

Definition new_RadioPlayer : RadioPlayer :=
  {| currentProcess := None; currentStation := None; processIds := [] |}.

Definition initial : World :=
  {| this := new_RadioPlayer; heap := []; timers := []; trace := [] |}.

(** The environment.  Each answer may depend on everything done so far. *)
Inductive SpawnResult :=
| SpawnThrows (e : Exn)
| Spawned (pid : option Z).

Record Env := {
  spawn_result : list Effect -> string -> list (option string) -> SpawnResult;
  kill_result : list Effect -> Z -> Signal -> option Exn;
  execSync_result : list Effect -> string -> Exn + string;
  axios_result :
    list Effect -> string -> SearchParams -> Exn + list RadioBrowserStation.t
}.

(** * The monad: state of the world, and JavaScript exceptions *)

Inductive Completion (A : Type) :=
| Normal (a : A)
| Thrown (e : Exn).
Arguments Normal {A} a.
Arguments Thrown {A} e.

Definition Js (A : Type) : Type := World -> Completion A * World.

Definition ret {A} (a : A) : Js A := fun w => (Normal a, w).

Definition bind {A B} (m : Js A) (k : A -> Js B) : Js B :=
  fun w =>
    match m w with
    | (Normal a, w') => k a w'
    | (Thrown e, w') => (Thrown e, w')
    end.

Definition throw {A} (e : Exn) : Js A := fun w => (Thrown e, w).

(** [try { body } catch (error) { handler }]: what [body] did to the world
    before it threw stays done. *)
Definition try_catch {A} (body : Js A) (handler : Exn -> Js A) : Js A :=
  fun w =>
    match body w with
    | (Normal a, w') => (Normal a, w')
    | (Thrown e, w') => handler e w'
    end.

Declare Scope js_scope.
Delimit Scope js_scope with js.
Notation "x <- c1 ;; c2" := (bind c1 (fun x => c2))
  (at level 100, c1 at next level, right associativity) : js_scope.
Notation "c1 ;; c2" := (bind c1 (fun _ => c2))
  (at level 100, right associativity) : js_scope.
Local Open Scope js_scope.

Definition when (b : bool) (m : Js unit) : Js unit := if b then m else ret tt.

(** [for (const x of xs) { body }] *)
Fixpoint for_of {A} (xs : list A) (body : A -> Js unit) : Js unit :=
  match xs with
  | [] => ret tt
  | x :: rest => body x ;; for_of rest body
  end.

Definition gets {A} (f : World -> A) : Js A := fun w => (Normal (f w), w).
Definition modify (f : World -> World) : Js unit := fun w => (Normal tt, f w).

(** ** Field updates *)

Definition with_this (f : RadioPlayer -> RadioPlayer) (w : World) : World :=
  {| this := f (this w); heap := heap w; timers := timers w; trace := trace w |}.

Definition with_heap (f : list ChildProcess -> list ChildProcess) (w : World) : World :=
  {| this := this w; heap := f (heap w); timers := timers w; trace := trace w |}.

Definition with_timers (f : list Timer -> list Timer) (w : World) : World :=
  {| this := this w; heap := heap w; timers := f (timers w); trace := trace w |}.

Definition with_trace (f : list Effect -> list Effect) (w : World) : World :=
  {| this := this w; heap := heap w; timers := timers w; trace := f (trace w) |}.

Definition put_currentProcess (p : option nat) (r : RadioPlayer) : RadioPlayer :=
  {| currentProcess := p; currentStation := currentStation r;
     processIds := processIds r |}.

Definition put_currentStation (s : option RadioStation) (r : RadioPlayer) : RadioPlayer :=
  {| currentProcess := currentProcess r; currentStation := s;
     processIds := processIds r |}.

Definition put_processIds (l : list Z) (r : RadioPlayer) : RadioPlayer :=
  {| currentProcess := currentProcess r; currentStation := currentStation r;
     processIds := l |}.

Definition set_currentProcess (p : option nat) : Js unit :=
  modify (with_this (put_currentProcess p)).

Definition set_currentStation (s : option RadioStation) : Js unit :=
  modify (with_this (put_currentStation s)).

Definition set_processIds (l : list Z) : Js unit :=
  modify (with_this (put_processIds l)).

(** [this.processIds.push(pid)] *)
Definition processIds_push (p : Z) : Js unit :=
  ids <- gets (fun w => processIds (this w)) ;; set_processIds (ids ++ [p]).

Definition perform (e : Effect) : Js unit :=
  modify (with_trace (fun t => t ++ [e])).

(** ** References to [ChildProcess] objects *)

Definition no_process : ChildProcess :=
  {| pid := None; killed := false; exited := false; onError := []; onExit := [] |}.

(** The object behind a reference.  A reference held by the program always
    points to an allocated object (see [valid_reachable]); the default only
    makes the lookup total. *)
Definition deref (w : World) (h : nat) : ChildProcess :=
  default no_process (heap w !! h).

Definition add_onError (l : ErrorListener) (p : ChildProcess) : ChildProcess :=
  {| pid := pid p; killed := killed p; exited := exited p;
     onError := onError p ++ [l]; onExit := onExit p |}.

Definition add_onExit (l : ExitListener) (p : ChildProcess) : ChildProcess :=
  {| pid := pid p; killed := killed p; exited := exited p;
     onError := onError p; onExit := onExit p ++ [l] |}.

Definition mark_exited (p : ChildProcess) : ChildProcess :=
  {| pid := pid p; killed := killed p; exited := true;
     onError := onError p; onExit := onExit p |}.

Definition alter_heap (f : ChildProcess -> ChildProcess) (h : nat)
  (hp : list ChildProcess) : list ChildProcess :=
  match hp !! h with
  | Some p => <[h := f p]> hp
  | None => hp
  end.

Definition alter_process (f : ChildProcess -> ChildProcess) (h : nat) : Js unit :=
  modify (with_heap (alter_heap f h)).

(** [h.on('error', l)] and [h.on('exit', l)] *)
Definition on_error (h : nat) (l : ErrorListener) : Js unit := alter_process (add_onError l) h.
Definition on_exit (h : nat) (l : ExitListener) : Js unit := alter_process (add_onExit l) h.

(** JavaScript truthiness of a [number | undefined] and of a
    [string | undefined]. *)
Definition truthy_number (n : option Z) : bool :=
  match n with
  | Some z => negb (z =? 0)%Z
  | None => false
  end.

Definition truthy_string (s : option string) : bool :=
  match s with
  | Some x => negb (String.eqb x "")
  | None => false
  end.

(** [a || b] on two [string | undefined] values. *)
Definition or_else (a b : option string) : option string :=
  if truthy_string a then a else b.

(** * String built-ins used by the class *)

(** [hay.includes(needle)] *)
Fixpoint includes (needle hay : string) : bool :=
  String.prefix needle hay ||
  match hay with
  | EmptyString => false
  | String _ rest => includes needle rest
  end.

(** White space as [trim] and [parseInt] see it, on the ASCII range: tab,
    line feed, vertical tab, form feed, carriage return, space.
    JavaScript also counts U+00A0, U+FEFF and the other Unicode spaces;
    [trim] and [parseInt] below are those of JavaScript on ASCII text
    only, and the properties that depend on what they return are stated
    for such text (see [plain_output]). *)
Definition is_whitespace (c : ascii) : bool :=
  let n := nat_of_ascii c in
  ((9 <=? n)%nat && (n <=? 13)%nat) || (n =? 32)%nat.

Fixpoint trim_start (s : string) : string :=
  match s with
  | EmptyString => EmptyString
  | String c rest => if is_whitespace c then trim_start rest else s
  end.

Definition string_rev (s : string) : string :=
  string_of_list_ascii (rev (list_ascii_of_string s)).

(** [s.trim()] *)
Definition trim (s : string) : string :=
  string_rev (trim_start (string_rev (trim_start s))).

Definition newline : ascii := ascii_of_nat 10.

(** [s.split('\n')] *)
Fixpoint split_lines (s : string) : list string :=
  match s with
  | EmptyString => [EmptyString]
  | String c rest =>
      if Ascii.eqb c newline then EmptyString :: split_lines rest
      else match split_lines rest with
           | first :: others => String c first :: others
           | [] => [String c EmptyString]
           end
  end.

(** The value of a digit in radix up to 36. *)
Definition digit_value (c : ascii) : option Z :=
  let n := Z.of_nat (nat_of_ascii c) in
  if ((48 <=? n) && (n <=? 57))%Z then Some (n - 48)%Z
  else if ((97 <=? n) && (n <=? 122))%Z then Some (n - 87)%Z
  else if ((65 <=? n) && (n <=? 90))%Z then Some (n - 55)%Z
  else None.

Fixpoint parse_digits (radix : Z) (s : string) (acc : option Z) : option Z :=
  match s with
  | EmptyString => acc
  | String c rest =>
      match digit_value c with
      | Some d =>
          if (d <? radix)%Z
          then parse_digits radix rest (Some (default 0 acc * radix + d))%Z
          else acc
      | None => acc
      end
  end.

(** [parseInt(s)] with no radix argument; [None] is [NaN].  The result is
    the exact integer, which is what JavaScript returns up to 2^53; beyond
    that JavaScript rounds to a double, which is not modelled: the
    properties that depend on the number are stated for numbers up to
    2^53 (see [plain_output]). *)
Definition parseInt (s : string) : option Z :=
  let s1 := trim_start s in
  let '(negative, s2) :=
    match s1 with
    | String "-" rest => (true, rest)
    | String "+" rest => (false, rest)
    | _ => (false, s1)
    end in
  let '(radix, s3) :=
    match s2 with
    | String "0" (String "x" rest) => (16, rest)
    | String "0" (String "X" rest) => (16, rest)
    | _ => (10, s2)
    end%Z in
  match parse_digits radix s3 None with
  | Some n => Some (if negative then - n else n)%Z
  | None => None
  end.

(** * The class [RadioPlayer] *)

Definition new_process (p : option Z) : ChildProcess :=
  {| pid := p; killed := false; exited := false; onError := []; onExit := [] |}.

Definition search_endpoint : string :=
  "http://all.api.radio-browser.info/json/stations/search".

(** The argument lists of the two backends (lines 19-25 and 65-70). *)
Definition mpv_args (station : RadioStation) : list (option string) :=
  [Some "--no-video"; Some "--no-terminal"; Some "--really-quiet";
   Some "--volume=70"; url station].

Definition vlc_args (station : RadioStation) : list (option string) :=
  [Some "--intf"; Some "dummy"; Some "--extraintf"; Some "http";
   Some "--http-password"; Some "vlc"; url station].

Section Program.

Variable env : Env.

(** ** Calls into Node *)

(** [spawn(cmd, args, options)]: throws, or returns a new [ChildProcess]
    (which has no pid when the binary could not be started; Node then
    emits ['error'] on it later).  The options are the same in both calls
    (piped output, [detached: true]) and are not recorded. *)
Definition spawn (cmd : string) (args : list (option string)) : Js nat :=
  fun w =>
    let w1 := with_trace (fun t => t ++ [Spawn cmd args]) w in
    match spawn_result env (trace w) cmd args with
    | SpawnThrows e => (Thrown e, w1)
    | Spawned p =>
        (Normal (length (heap w)), with_heap (fun hp => hp ++ [new_process p]) w1)
    end.

(** [process.kill(target, sig)] *)
Definition process_kill (target : Z) (sig : Signal) : Js unit :=
  fun w =>
    let w1 := with_trace (fun t => t ++ [ProcessKill target sig]) w in
    match kill_result env (trace w) target sig with
    | Some e => (Thrown e, w1)
    | None => (Normal tt, w1)
    end.

(** [execSync(cmd, { encoding: 'utf8' })] *)
Definition execSync (cmd : string) : Js string :=
  fun w =>
    let w1 := with_trace (fun t => t ++ [ExecSync cmd]) w in
    match execSync_result env (trace w) cmd with
    | inl e => (Thrown e, w1)
    | inr out => (Normal out, w1)
    end.

(** [(await axios.get(endpoint, { params, timeout: 5000 })).data] *)
Definition axios_get (endpoint : string) (params : SearchParams)
  : Js (list RadioBrowserStation.t) :=
  fun w =>
    let w1 := with_trace (fun t => t ++ [AxiosGet endpoint params]) w in
    match axios_result env (trace w) endpoint params with
    | inl e => (Thrown e, w1)
    | inr data => (Normal data, w1)
    end.

Definition console_log (args : list string) : Js unit := perform (ConsoleLog args).
Definition console_error (args : list string) : Js unit := perform (ConsoleError args).

(** [setTimeout(callback, ms)] *)
Definition setTimeout (callback : Timer) (ms : Z) : Js unit :=
  perform (SetTimeout ms) ;;
  modify (with_timers (fun q => q ++ [callback])).

(** [if (p) { k(p) }] for a [number | undefined] *)
Definition if_pid (p : option Z) (k : Z -> Js unit) : Js unit :=
  match p with
  | Some z => if (z =? 0)%Z then ret tt else k z
  | None => ret tt
  end.

(** ** killAllProcesses (lines 154-207) *)

(** Lines 156-183: the current process, if there is one. *)
Definition kill_current (force : bool) : Js unit :=
  cp <- gets (fun w => currentProcess (this w)) ;;
  match cp with
  | Some h =>
      p <- gets (fun w => deref w h) ;;
      when (negb (killed p))
        (try_catch
           (if force then
              if_pid (pid p) (fun z => process_kill (- z) SIGKILL)
            else
              if_pid (pid p) (fun z => process_kill (- z) SIGTERM) ;;
              setTimeout KillCurrentGroup 1000)
           (fun _ => ret tt))
  | None => ret tt
  end.

(** Lines 186-203: every tracked process identifier. *)
Definition kill_tracked (force : bool) : Js unit :=
  ids <- gets (fun w => processIds (this w)) ;;
  for_of ids (fun z =>
    try_catch
      (if force then process_kill (- z) SIGKILL
       else
         process_kill (- z) SIGTERM ;;
         setTimeout (KillGroup z) 1000)
      (fun _ => ret tt)).

Definition killAllProcesses (force : bool) : Js unit :=
  kill_current force ;;
  kill_tracked force ;;
  set_processIds [].

(** ** stop (lines 101-105) *)

Definition stop : Js unit :=
  killAllProcesses false ;;
  set_currentProcess None ;;
  set_currentStation None.

(** ** killOrphanedProcesses (lines 116-152) *)

(** [process.kill(parseInt(pid), 'SIGKILL')]; Node throws a [TypeError]
    for [NaN] before it signals anything. *)
Definition kill_parsed (line : string) : Js unit :=
  match parseInt line with
  | Some z => process_kill z SIGKILL
  | None => throw (JsError "TypeError [ERR_INVALID_ARG_TYPE]")
  end.

(** One of the two blocks, lines 119-132 for mpv and 135-148 for vlc. *)
Definition sweep (binary : string) : Js unit :=
  try_catch
    (out <- execSync ("pgrep " ++ binary) ;;
     for_of (split_lines (trim out)) (fun line =>
       when (negb (String.eqb line ""))
         (try_catch (kill_parsed line) (fun _ => ret tt))))
    (fun _ => ret tt).

Definition killOrphanedProcesses : Js unit :=
  try_catch
    (sweep "mpv" ;;
     sweep "vlc")
    (fun _ => ret tt).

(** ** forceStop (lines 108-113) *)

Definition forceStop : Js unit :=
  killAllProcesses true ;;
  killOrphanedProcesses ;;
  set_currentProcess None ;;
  set_currentStation None.

(** ** tryVLC (lines 63-99) *)

Definition tryVLC (station : RadioStation) : Js unit :=
  try_catch
    (h <- spawn "vlc" (vlc_args station) ;;
     set_currentProcess (Some h) ;;
     p <- gets (fun w => pid (deref w h)) ;;
     if_pid p processIds_push ;;
     on_error h TryVLCOnError ;;
     on_exit h OnExit)
    (fun error => console_error ["❌ Failed to start VLC:"; message error]).

(** ** play (lines 11-61) *)

(** The [try] block of [play] up to its [await] (lines 17-51), with the
    [catch] block (lines 57-60). *)
Definition play_try (station : RadioStation) : Js unit :=
  try_catch
    (h <- spawn "mpv" (mpv_args station) ;;
     set_currentProcess (Some h) ;;
     p <- gets (fun w => pid (deref w h)) ;;
     if_pid p processIds_push ;;
     on_error h (PlayOnError station) ;;
     on_exit h OnExit ;;
     setTimeout (PlayResume station) 1000)
    (fun error =>
       console_error ["❌ Failed to start playback:"; message error] ;;
       tryVLC station).

(** The part of [play] before its [await]. *)
Definition play_begin (station : RadioStation) : Js unit :=
  stop ;;
  set_currentStation (Some station) ;;
  play_try station.

(** The part of [play] after its [await], run when the timer fires. *)
Definition play_resume (station : RadioStation) : Js unit :=
  try_catch
    (cp <- gets (fun w => currentProcess (this w)) ;;
     match cp with
     | Some h =>
         p <- gets (fun w => deref w h) ;;
         when (negb (killed p)) (console_log ["✅ Now playing!"])
     | None => ret tt
     end)
    (fun error =>
       console_error ["❌ Failed to start playback:"; message error] ;;
       tryVLC station).

(** ** The listeners *)

Definition run_onError (l : ErrorListener) (error : Exn) : Js unit :=
  match l with
  | PlayOnError station =>
      if includes "ENOENT" (message error) then tryVLC station
      else console_error ["❌ Playback error:"; message error]
  | TryVLCOnError =>
      if includes "ENOENT" (message error) then
        console_error ["❌ Neither mpv nor VLC found. Please install one of them:"] ;;
        console_log ["  macOS: brew install mpv  or  brew install vlc"] ;;
        console_log ["  Linux: sudo apt install mpv  or  sudo apt install vlc"]
      else console_error ["❌ VLC playback error:"; message error]
  end.

(** [code] is a [number | null]. *)
Definition run_onExit (l : ExitListener) (code : option Z) : Js unit :=
  match l with
  | OnExit =>
      match code with
      | Some c => when (negb (c =? 0)%Z) (console_log ["🔇 Playback stopped"])
      | None => ret tt
      end
  end.

(** ** getCurrentStation, isPlaying (lines 209-215) *)

Definition getCurrentStation (w : World) : option RadioStation :=
  currentStation (this w).

Definition isPlaying (w : World) : bool :=
  match currentProcess (this w) with
  | Some h => negb (killed (deref w h))
  | None => false
  end.

End Program.

(** * The directory search (lines 217-281) *)

(** The object literal of the [map] callback. *)
Definition to_RadioStation (station : RadioBrowserStation.t) : RadioStation :=
  {| name := RadioBrowserStation.name station;
     url := or_else (RadioBrowserStation.url_resolved station)
                    (RadioBrowserStation.url station);
     genre := RadioBrowserStation.tags station;
     country := RadioBrowserStation.country station;
     bitrate := RadioBrowserStation.bitrate station;
     codec := RadioBrowserStation.codec station |}.

(** The [filter] callback: [station.lastcheckok === 1]. *)
Definition is_working (station : RadioBrowserStation.t) : bool :=
  (RadioBrowserStation.lastcheckok station =? 1)%Z.

(** [response.data.filter(...).map(...)] *)
Definition to_results (data : list RadioBrowserStation.t) : list RadioStation :=
  List.map to_RadioStation (List.filter is_working data).

Definition name_params (query : string) (limit : Z) : SearchParams :=
  {| param_name := Some query; param_tag := None; param_limit := limit;
     param_hidebroken := true; param_order := "votes"; param_reverse := true |}.

Definition tag_params (genre : string) (limit : Z) : SearchParams :=
  {| param_name := None; param_tag := Some genre; param_limit := limit;
     param_hidebroken := true; param_order := "votes"; param_reverse := true |}.

(** The default of the [limit] parameter. *)
Definition default_limit : Z := 20.

Section Search.

Variable env : Env.

Definition searchStations (query : string) (limit : Z) : Js (list RadioStation) :=
  try_catch
    (data <- axios_get env search_endpoint (name_params query limit) ;;
     ret (to_results data))
    (fun error =>
       console_error ["❌ Search failed:"; message error] ;;
       ret []).

Definition searchByGenre (genre : string) (limit : Z) : Js (list RadioStation) :=
  try_catch
    (data <- axios_get env search_endpoint (tag_params genre limit) ;;
     ret (to_results data))
    (fun error =>
       console_error ["❌ Genre search failed:"; message error] ;;
       ret []).

End Search.

(** * The event loop: what can happen to a player *)

Inductive Action :=
| CallPlay (station : RadioStation)      (* play(station), up to its await *)
| CallStop
| CallForceStop
| CallSearchStations (query : string) (limit : Z)
| CallSearchByGenre (genre : string) (limit : Z)
| EmitError (h : nat) (error : Exn)      (* 'error' on a ChildProcess *)
| EmitExit (h : nat) (code : option Z)   (* 'exit' on a ChildProcess *)
| FireTimer.                             (* the oldest pending timer is due *)

(** The actions that the runtime takes on its own, as opposed to calls of
    [play], [stop], [forceStop] and the searches. *)
Definition is_async (a : Action) : bool :=
  match a with
  | EmitError _ _ | EmitExit _ _ | FireTimer => true
  | _ => false
  end.

Definition is_resume (t : Timer) : bool :=
  match t with
  | PlayResume _ => true
  | _ => false
  end.

Section EventLoop.

Variable env : Env.

(** Node emits ['error'] on the object [h]: its listeners run. *)
Definition emit_error (h : nat) (error : Exn) : Js unit :=
  ls <- gets (fun w => onError (deref w h)) ;;
  for_of ls (fun l => run_onError env l error).

(** Node emits ['exit'] on the object [h].  The object is marked as
    exited; its [killed] flag is not touched. *)
Definition emit_exit (h : nat) (code : option Z) : Js unit :=
  alter_process mark_exited h ;;
  ls <- gets (fun w => onExit (deref w h)) ;;
  for_of ls (fun l => run_onExit l code).

Definition run_timer (t : Timer) : Js unit :=
  match t with
  | PlayResume station => play_resume env station
  | KillCurrentGroup =>
      cp <- gets (fun w => currentProcess (this w)) ;;
      match cp with
      | Some h =>
          p <- gets (fun w => deref w h) ;;
          when (negb (killed p))
            (if_pid (pid p) (fun z =>
               try_catch (process_kill env (- z) SIGKILL) (fun _ => ret tt)))
      | None => ret tt
      end
  | KillGroup z =>
      try_catch (process_kill env (- z) SIGKILL) (fun _ => ret tt)
  end.

(** All delays are equal, so the timers are due in the order in which
    they were set. *)
Definition fire_timer : Js unit :=
  q <- gets timers ;;
  match q with
  | [] => ret tt
  | t :: _ => modify (with_timers (fun q => tail q)) ;; run_timer t
  end.

Definition step (a : Action) : Js unit :=
  match a with
  | CallPlay station => play_begin env station
  | CallStop => stop env
  | CallForceStop => forceStop env
  | CallSearchStations query limit => searchStations env query limit ;; ret tt
  | CallSearchByGenre genre limit => searchByGenre env genre limit ;; ret tt
  | EmitError h error => emit_error h error
  | EmitExit h code => emit_exit h code
  | FireTimer => fire_timer
  end.

Definition exec (actions : list Action) : Js unit := for_of actions step.

(** Timers fire, oldest first, up to and including the last pending
    continuation of a [play]. *)
Fixpoint fire_through_resume (pending : list Timer) : Js unit :=
  match pending with
  | [] => ret tt
  | t :: rest =>
      fire_timer ;;
      if existsb is_resume rest then fire_through_resume rest else ret tt
  end.

(** The awaited call returns when its own continuation has run.  [play]
    sets that timer last (line 51), and nothing that the runtime does on
    its own sets a timer: while the continuation is pending it is the
    youngest timer, and the last continuation in the queue.  Older
    timers, the continuation of an earlier [play] that was not awaited
    among them, are due before it.  When no continuation is pending, the
    own one has run already. *)
Definition await_resume : Js unit :=
  q <- gets timers ;;
  if existsb is_resume q then fire_through_resume q else ret tt.

(** [await play(station)]: the call, what the runtime does [during] the
    delay, and the continuation when the delay is over. *)
Definition play (station : RadioStation) (during : list Action) : Js unit :=
  play_begin env station ;;
  exec during ;;
  await_resume.

(** The worlds that a program can be in. *)
Inductive reachable : World -> Prop :=
| reachable_initial : reachable initial
| reachable_step w a : reachable w -> reachable (snd (step a w)).

End EventLoop.

(** * The vocabulary of the properties *)

Definition any_effect (e : Effect) : bool := true.

(** No [ChildProcess] object has its [killed] flag set: the class never
    calls [ChildProcess.kill()]; it signals through [process.kill]. *)
Definition unkilled (w : World) : Prop :=
  Forall (fun p => killed p = false) (heap w).

(** When there is no current process, no identifier is tracked. *)
Definition idle_untracked (w : World) : Prop :=
  currentProcess (this w) = None -> processIds (this w) = [].

(** The reference [currentProcess] points into the heap. *)
Definition current_valid (w : World) : Prop :=
  forall h, currentProcess (this w) = Some h -> h < length (heap w).

Definition coherent (w : World) : Prop := idle_untracked w /\ current_valid w.

Definition station_is (c : option RadioStation) (w : World) : Prop :=
  getCurrentStation w = c.

(** A world in which nothing is playing: no current process, no tracked
    identifier. *)
Definition idle (s : option RadioStation) (hp : list ChildProcess)
  (tm : list Timer) (tr : list Effect) : World :=
  {| this := {| currentProcess := None; currentStation := s; processIds := [] |};
     heap := hp; timers := tm; trace := tr |}.

Definition is_spawn (e : Effect) : bool :=
  match e with
  | Spawn _ _ => true
  | _ => false
  end.

(** The launches that a trace records, in order. *)
Definition spawns (t : list Effect) : list Effect := List.filter is_spawn t.

(** The list that a search returns; a search that throws returns none. *)
Definition returned (r : Completion (list RadioStation) * World) : list RadioStation :=
  match fst r with
  | Normal l => l
  | Thrown _ => []
  end.

(** The directory's answer to a request made in world [w]; no entries
    when the request fails. *)
Definition answer (env : Env) (w : World) (params : SearchParams)
  : list RadioBrowserStation.t :=
  match axios_result env (trace w) search_endpoint params with
  | inr data => data
  | inl _ => []
  end.

(** The number of entries whose last-check-ok flag differs from 1. *)
Definition count_not_ok (data : list RadioBrowserStation.t) : nat :=
  length (List.filter (fun e => negb (RadioBrowserStation.lastcheckok e =? 1)%Z) data).

(** The effects of a termination sweep: signals, and the timers of the
    deferred forced kills. *)
Definition signal_or_timer (e : Effect) : bool :=
  match e with
  | ProcessKill _ _ | SetTimeout _ => true
  | _ => false
  end.

(** From [w0] to [w] the trace has grown by effects that are [allowed]. *)
Definition grown_by (allowed : Effect -> bool) (w0 w : World) : Prop :=
  exists tr, trace w = trace w0 ++ tr /\ Forall (fun e => allowed e = true) tr.

(** From [w0] to [w] the group of [p] has been sent SIGTERM. *)
Definition terminated (w0 : World) (p : Z) (w : World) : Prop :=
  exists tr, trace w = trace w0 ++ tr /\ In (ProcessKill (- p) SIGTERM) tr.

(** From trace [t0] on, the next effect was [e]. *)
Definition next_effect (t0 : list Effect) (e : Effect) (w : World) : Prop :=
  exists rest, trace w = t0 ++ e :: rest.

(** What is tracked belongs to objects allocated at index [n] or later. *)
Definition tracks_from (n : nat) (w : World) : Prop :=
  length (processIds (this w)) <= 1 /\
  (forall p, In p (processIds (this w)) ->
             exists h, n <= h /\ pid (deref w h) = Some p) /\
  (forall h, currentProcess (this w) = Some h -> n <= h).

(** * Environments and stations for the examples *)

Definition ENOENT (cmd : string) : Exn := JsError ("spawn " ++ cmd ++ " ENOENT").

(** Every binary starts, the process of the n-th launch gets pid 1000 + n
    (counting from 0), signals are delivered, [pgrep] finds nothing, the
    directory is unreachable. *)
Definition healthy : Env :=
  {| spawn_result := fun t _ _ => Spawned (Some (1000 + Z.of_nat (length (spawns t)))%Z);
     kill_result := fun _ _ _ => None;
     execSync_result := fun _ _ => inl (JsError "Command failed: pgrep");
     axios_result := fun _ _ _ => inl (JsError "timeout of 5000ms exceeded") |}.

(** Neither mpv nor vlc is installed: [spawn] returns objects without a
    pid.  Signals to process groups that do not exist fail with ESRCH. *)
Definition no_player : Env :=
  {| spawn_result := fun _ _ _ => Spawned None;
     kill_result := fun _ _ _ => Some (JsError "kill ESRCH");
     execSync_result := fun _ _ => inl (JsError "Command failed: pgrep");
     axios_result := fun _ _ _ => inl (JsError "timeout of 5000ms exceeded") |}.

Definition test_fm : RadioStation :=
  {| name := "Test FM"; url := Some "http://example.invalid/stream";
     genre := None; country := None; bitrate := None; codec := None |}.

(** [spawn] throws for every binary. *)
Definition spawn_throws : Env :=
  {| spawn_result := fun _ cmd _ => SpawnThrows (JsError ("spawn " ++ cmd ++ " EACCES"));
     kill_result := fun _ _ _ => None;
     execSync_result := fun _ _ => inl (JsError "Command failed: pgrep");
     axios_result := fun _ _ _ => inl (JsError "timeout of 5000ms exceeded") |}.

(** mpv is not installed, vlc is: [spawn] returns an object without a
    pid for mpv, and the process of a launch of vlc gets pid 2000 + n when
    n launches went before. *)
Definition vlc_only : Env :=
  {| spawn_result := fun t cmd _ =>
       if String.eqb cmd "vlc"
       then Spawned (Some (2000 + Z.of_nat (length (spawns t)))%Z)
       else Spawned None;
     kill_result := fun _ _ _ => None;
     execSync_result := fun _ _ => inl (JsError "Command failed: pgrep");
     axios_result := fun _ _ _ => inl (JsError "timeout of 5000ms exceeded") |}.

Definition jazz_fm : RadioStation :=
  {| name := "Jazz FM"; url := Some "http://example.invalid/jazz";
     genre := None; country := None; bitrate := None; codec := None |}.

Definition entry (n : string) (resolved raw : option string) (ok : Z)
  : RadioBrowserStation.t :=
  {| RadioBrowserStation.name := n;
     RadioBrowserStation.url := raw;
     RadioBrowserStation.url_resolved := resolved;
     RadioBrowserStation.tags := Some "jazz";
     RadioBrowserStation.country := Some "France";
     RadioBrowserStation.bitrate := Some 128%Z;
     RadioBrowserStation.codec := Some "MP3";
     RadioBrowserStation.lastcheckok := ok |}.

(** A directory that answers every request with the same entries,
    whatever [limit] the request carries. *)
Definition directory (data : list RadioBrowserStation.t) : Env :=
  {| spawn_result := fun _ _ _ => Spawned None;
     kill_result := fun _ _ _ => None;
     execSync_result := fun _ _ => inl (JsError "Command failed: pgrep");
     axios_result := fun _ _ _ => inr data |}.

Definition three_working : list RadioBrowserStation.t :=
  [entry "Jazz One" (Some "http://one.example/stream") (Some "http://one.example/") 1;
   entry "Jazz Two" (Some "http://two.example/stream") (Some "http://two.example/") 1;
   entry "Jazz Three" (Some "http://three.example/stream") (Some "http://three.example/") 1].

Definition one_broken : list RadioBrowserStation.t :=
  [entry "Jazz One" (Some "http://one.example/stream") (Some "http://one.example/") 1;
   entry "Jazz Two" (Some "http://two.example/stream") (Some "http://two.example/") 0;
   entry "Jazz Three" (Some "http://three.example/stream") (Some "http://three.example/") 1].

(** Every [process.kill] fails with EPERM, and [pgrep] prints two
    identifiers and a line that is no number: [forceStop] tries the
    tracked group, the two identifiers, and returns normally. *)
Definition hostile : Env :=
  {| spawn_result := fun _ _ _ => Spawned (Some 4321%Z);
     kill_result := fun _ _ _ => Some (JsError "kill EPERM");
     execSync_result :=
       fun _ cmd =>
         if String.eqb cmd "pgrep mpv"
         then inr (String.append "12" (String newline
                     (String.append "abc" (String newline
                        (String.append "34" (String newline EmptyString))))))
         else inl (JsError "Command failed: pgrep vlc");
     axios_result := fun _ _ _ => inl (JsError "timeout of 5000ms exceeded") |}.

(** * More vocabulary: signals and sweeps *)

(** From [w0] to [w] the target [z] has been sent the signal [sig]. *)
Definition signalled (sig : Signal) (w0 : World) (z : Z) (w : World) : Prop :=
  exists tr, trace w = trace w0 ++ tr /\ In (ProcessKill z sig) tr.

(** The effects of a forced stop: SIGKILL, and the [pgrep] of the sweep. *)
Definition forced_kill_or_pgrep (e : Effect) : bool :=
  match e with
  | ProcessKill _ SIGKILL | ExecSync _ => true
  | _ => false
  end.

(** What a forced stop keeps: the player, the heap and the timers; the
    trace grows by SIGKILLs and [pgrep]s only. *)
Definition forced_frame (w0 w : World) : Prop :=
  this w = this w0 /\ heap w = heap w0 /\ timers w = timers w0 /\
  grown_by forced_kill_or_pgrep w0 w.

(** The effects of a timer callback: a SIGKILL, or the message of the
    continuation of [play]. *)
Definition timer_effect (e : Effect) : bool :=
  match e with
  | ProcessKill _ SIGKILL | ConsoleLog _ => true
  | _ => false
  end.

(** What a timer callback keeps: the player, the heap and the queue of
    timers. *)
Definition timer_frame (w0 w : World) : Prop :=
  this w = this w0 /\ heap w = heap w0 /\ timers w = timers w0 /\
  grown_by timer_effect w0 w.

(** Every pending timer fires, oldest first. *)
Definition drain (env : Env) (w : World) : Completion unit * World :=
  exec env (repeat FireTimer (length (timers w))) w.

(** The identifier that the sweep takes from one line of [pgrep]'s
    output: none from an empty line or from a line that [parseInt] does
    not read as a number. *)
Definition line_target (line : string) : list Z :=
  if String.eqb line "" then []
  else match parseInt line with
       | Some z => [z]
       | None => []
       end.

(** The identifiers that the sweep takes from [pgrep]'s output. *)
Definition sweep_targets (out : string) : list Z :=
  flat_map line_target (split_lines (trim out)).

(** The effects of the sweep for one binary, given what [pgrep] did. *)
Definition sweep_effects (binary : string) (result : Exn + string) : list Effect :=
  ExecSync ("pgrep " ++ binary) ::
  match result with
  | inr out => List.map (fun z => ProcessKill z SIGKILL) (sweep_targets out)
  | inl _ => []
  end.

(** The answers of [pgrep] on which [trim], [split] and [parseInt] are
    modelled exactly: text in ASCII (the white space of JavaScript
    outside ASCII does not occur), in which no line starts with a number
    beyond 2^53 (which JavaScript would round). *)
Definition is_ascii (c : ascii) : bool := (nat_of_ascii c <? 128)%nat.

Definition plain_output (out : string) : Prop :=
  forallb is_ascii (list_ascii_of_string out) = true /\
  Forall (fun z => (Z.abs z <= 9007199254740992)%Z) (sweep_targets out).

Definition plain_answers (env : Env) : Prop :=
  forall t cmd out, execSync_result env t cmd = inr out -> plain_output out.

(** * The output of [pgrep] *)

(** A number as [pgrep] prints it: in decimal. *)
Definition decimal (n : N) : string :=
  NilEmpty.string_of_uint (N.to_uint n).

(** What [pgrep] prints when it finds the processes [pids]: one
    identifier per line, each line ended by a line feed. *)
Definition pgrep_output (pids : list N) : string :=
  fold_right (fun n out => (decimal n ++ String newline out)%string) "" pids.

Definition is_digit (c : ascii) : bool :=
  (48 <=? nat_of_ascii c)%nat && (nat_of_ascii c <=? 57)%nat.

Fixpoint all_digits (s : string) : bool :=
  match s with
  | EmptyString => true
  | String c rest => is_digit c && all_digits rest
  end.

Definition forced_kills (pids : list N) : list Effect :=
  List.map (fun n => ProcessKill (Z.of_N n) SIGKILL) pids.

(** [pgrep mpv] finds the processes 4711 and 4712, [pgrep vlc] finds 4800;
    the signal to 4711 fails. *)
Definition with_orphans : Env :=
  {| spawn_result := fun _ _ _ => Spawned None;
     kill_result := fun _ z _ =>
       if (z =? 4711)%Z then Some (JsError "kill EPERM") else None;
     execSync_result := fun _ cmd =>
       if String.eqb cmd "pgrep mpv" then inr (pgrep_output [4711; 4712]%N)
       else if String.eqb cmd "pgrep vlc" then inr (pgrep_output [4800]%N)
       else inl (JsError "Command failed");
     axios_result := fun _ _ _ => inl (JsError "timeout of 5000ms exceeded") |}.

(** * Deferred kills *)

(** Between [w0] and [w] a SIGTERM was sent to the group of [p], it was
    delivered (the environment, asked at the very trace at which the
    signal was sent, let [process.kill] return), and a timer was set
    right after it. *)
Definition delivered_in (env : Env) (w0 w : World) (p : Z) : Prop :=
  exists before after,
    trace w = trace w0 ++ before ++ ProcessKill (- p) SIGTERM :: SetTimeout 1000 :: after /\
    kill_result env (trace w0 ++ before) (- p) SIGTERM = None.

(** The timers that a graceful stop, begun in [w0] and come to [w], may
    have set.  The one for the current process: there was a current
    process, not marked as killed, and if it had an identifier, the
    SIGTERM to its group (the first effect of the stop) was delivered.  One for an identifier that
    was tracked in [w0] and whose group took a SIGTERM of this stop.  No
    continuation of a [play]. *)
Definition deferred_for (env : Env) (w0 w : World) (t : Timer) : Prop :=
  match t with
  | KillCurrentGroup =>
      exists h,
        currentProcess (this w0) = Some h /\
        killed (deref w0 h) = false /\
        forall z, pid (deref w0 h) = Some z -> z <> 0%Z ->
                  kill_result env (trace w0) (- z) SIGTERM = None
  | KillGroup p => In p (processIds (this w0)) /\ delivered_in env w0 w p
  | PlayResume _ => False
  end.

(** From [w0] to [w] the timer queue has only grown, by timers in [P]. *)
Definition scheduled (P : Timer -> Prop) (w0 w : World) : Prop :=
  exists added, timers w = timers w0 ++ added /\ Forall P added.

(** A graceful stop that began in [w0] has come to [w]: the player is
    untouched so far, the trace has grown, and the timers set are
    deferred kills for signals of this stop that were delivered. *)
Definition defers (env : Env) (w0 w : World) : Prop :=
  this w = this w0 /\
  (exists tr, trace w = trace w0 ++ tr) /\
  scheduled (deferred_for env w0 w) w0 w.

(** * The processes of the player *)

(** [p] is the identifier of a process that the player has launched. *)
Definition owned (w : World) (p : Z) : Prop :=
  p <> 0%Z /\ In (Some p) (List.map pid (heap w)).

(** A SIGTERM goes to the group of a process of the player. *)
Definition own_signal (w : World) (e : Effect) : Prop :=
  match e with
  | ProcessKill z SIGTERM => owned w (- z)
  | _ => True
  end.

(** Every tracked identifier, and the target of every SIGTERM sent so
    far, is a process of the player. *)
Definition signals_own (w : World) : Prop :=
  Forall (owned w) (processIds (this w)) /\ Forall (own_signal w) (trace w).

(** What a pending timer does once the player has no current process. *)
Definition timer_kill (t : Timer) : list Effect :=
  match t with
  | KillGroup p => [ProcessKill (- p) SIGKILL]
  | _ => []
  end.

(** The launch that follows the launch of mpv within the call of [play]:
    vlc, when [spawn] threw. *)
Definition fallback_launch (station : RadioStation) (r : SpawnResult) : list Effect :=
  match r with
  | SpawnThrows _ => [Spawn "vlc" (vlc_args station)]
  | Spawned _ => []
  end.

(** From [w0] to [w] the player has announced that it is playing
    (line 54). *)
Definition announced (w0 w : World) : Prop :=
  exists tr, trace w = trace w0 ++ tr /\ In (ConsoleLog ["✅ Now playing!"]) tr.

(** During the delay of a [play] that began in [w0]: there is a current
    process, and the continuation of a [play] is pending unless the
    announcement has been made. *)
Definition awaiting (env : Env) (w0 w : World) : Prop :=
  reachable env w /\
  currentProcess (this w) <> None /\
  grown_by any_effect w0 w /\
  (existsb is_resume (timers w) = true \/ announced w0 w).

(** * A weakest-precondition calculus for [Js]

    [wp m Q E w]: run from [w], [m] either returns [a] in a world that
    satisfies [Q a], or throws in a world that satisfies [E]. *)

Definition wp {A} (m : Js A) (Q : A -> World -> Prop) (E : World -> Prop)
  (w : World) : Prop :=
  match m w with
  | (Normal a, w') => Q a w'
  | (Thrown _, w') => E w'
  end.

Lemma wp_ret {A} (a : A) Q E w : Q a w -> wp (ret a) Q E w.
Proof. intros H. exact H. Qed.

Lemma wp_throw {A} e (Q : A -> World -> Prop) (E : World -> Prop) w :
  E w -> wp (throw e) Q E w.
Proof. intros H. exact H. Qed.

Lemma wp_bind {A B} (m : Js A) (k : A -> Js B) Q E w :
  wp m (fun a w' => wp (k a) Q E w') E w -> wp (bind m k) Q E w.
Proof.
  unfold wp, bind. destruct (m w) as [[a|e] w']; intros H; exact H.
Qed.

Lemma wp_try_catch {A} (body : Js A) handler Q E w :
  wp body Q (fun w' => forall e, wp (handler e) Q E w') w ->
  wp (try_catch body handler) Q E w.
Proof.
  unfold wp, try_catch. destruct (body w) as [[a|e] w']; intros H.
  - exact H.
  - apply H.
Qed.

Lemma wp_gets {A} (f : World -> A) Q E w : Q (f w) w -> wp (gets f) Q E w.
Proof. intros H. exact H. Qed.

Lemma wp_modify f Q E w : Q tt (f w) -> wp (modify f) Q E w.
Proof. intros H. exact H. Qed.

Lemma wp_when (b : bool) m Q E w :
  (b = true -> wp m Q E w) -> (b = false -> Q tt w) -> wp (when b m) Q E w.
Proof. destruct b; intros H1 H2; [apply H1 | apply H2]; reflexivity. Qed.

Lemma wp_mono {A} (m : Js A) (Q Q' : A -> World -> Prop) (E E' : World -> Prop) w :
  wp m Q E w ->
  (forall a w', Q a w' -> Q' a w') ->
  (forall w', E w' -> E' w') ->
  wp m Q' E' w.
Proof.
  unfold wp. destruct (m w) as [[a|e] w']; intros H HQ HE; auto.
Qed.

(** A loop keeps what every turn keeps. *)
Lemma wp_for_of {A} (xs : list A) body (I : World -> Prop) E w :
  I w ->
  (forall x w', x ∈ xs -> I w' -> wp (body x) (fun _ => I) E w') ->
  wp (for_of xs body) (fun _ => I) E w.
Proof.
  revert w. induction xs as [|x xs IH]; intros w Hi Hbody; simpl.
  - exact Hi.
  - apply wp_bind. eapply wp_mono.
    + apply Hbody; [left | exact Hi].
    + intros [] w' Hi'. apply IH; [exact Hi'|].
      intros y w'' Hy. apply Hbody. right. exact Hy.
    + auto.
Qed.

Lemma wp_total_elim (m : Js unit) Q w :
  wp m Q (fun _ => False) w -> fst (m w) = Normal tt /\ Q tt (snd (m w)).
Proof.
  unfold wp. destruct (m w) as [[[]|e] w']; simpl; intros H; [auto | contradiction].
Qed.

Section Calls.

Variable env : Env.

Lemma wp_spawn cmd args Q E w :
  (let w1 := with_trace (fun t => t ++ [Spawn cmd args]) w in
   E w1 /\
   forall p, Q (length (heap w)) (with_heap (fun hp => hp ++ [new_process p]) w1)) ->
  wp (spawn env cmd args) Q E w.
Proof.
  unfold wp, spawn. simpl. intros [He Hq].
  destruct (spawn_result env (trace w) cmd args); [exact He | apply Hq].
Qed.

Lemma wp_process_kill target sig Q E w :
  (let w1 := with_trace (fun t => t ++ [ProcessKill target sig]) w in
   E w1 /\ Q tt w1) ->
  wp (process_kill env target sig) Q E w.
Proof.
  unfold wp, process_kill. simpl. intros [He Hq].
  destruct (kill_result env (trace w) target sig); assumption.
Qed.

Lemma wp_execSync cmd Q E w :
  (let w1 := with_trace (fun t => t ++ [ExecSync cmd]) w in
   E w1 /\ forall out, Q out w1) ->
  wp (execSync env cmd) Q E w.
Proof.
  unfold wp, execSync. simpl. intros [He Hq].
  destruct (execSync_result env (trace w) cmd); [exact He | apply Hq].
Qed.

Lemma wp_axios_get endpoint params Q E w :
  (let w1 := with_trace (fun t => t ++ [AxiosGet endpoint params]) w in
   E w1 /\ forall data, Q data w1) ->
  wp (axios_get env endpoint params) Q E w.
Proof.
  unfold wp, axios_get. simpl. intros [He Hq].
  destruct (axios_result env (trace w) endpoint params); [exact He | apply Hq].
Qed.

Lemma wp_if_pid p k Q E w :
  (forall z, p = Some z -> z <> 0%Z -> wp (k z) Q E w) ->
  (truthy_number p = false -> Q tt w) ->
  wp (if_pid p k) Q E w.
Proof.
  intros Hk Hq. unfold if_pid. destruct p as [z|]; [|apply Hq; reflexivity].
  destruct (Z.eqb_spec z 0) as [->|Hz].
  - apply Hq. reflexivity.
  - apply Hk; [reflexivity | exact Hz].
Qed.

End Calls.

(** One step of symbolic execution. *)
Ltac wp_step :=
  lazymatch goal with
  | |- wp (bind _ _) _ _ _ => apply wp_bind
  | |- wp (ret _) _ _ _ => apply wp_ret
  | |- wp (throw _) _ _ _ => apply wp_throw
  | |- wp (try_catch _ _) _ _ _ => apply wp_try_catch
  | |- wp (gets _) _ _ _ => apply wp_gets
  | |- wp (modify _) _ _ _ => apply wp_modify
  | |- wp (set_currentProcess _) _ _ _ => apply wp_modify
  | |- wp (set_currentStation _) _ _ _ => apply wp_modify
  | |- wp (set_processIds _) _ _ _ => apply wp_modify
  | |- wp (processIds_push _) _ _ _ => unfold processIds_push
  | |- wp (perform _) _ _ _ => apply wp_modify
  | |- wp (console_log _) _ _ _ => apply wp_modify
  | |- wp (console_error _) _ _ _ => apply wp_modify
  | |- wp (alter_process _ _) _ _ _ => apply wp_modify
  | |- wp (on_error _ _) _ _ _ => apply wp_modify
  | |- wp (on_exit _ _) _ _ _ => apply wp_modify
  | |- wp (setTimeout _ _) _ _ _ => unfold setTimeout
  | |- wp (spawn _ _ _) _ _ _ => apply wp_spawn; cbv zeta; split; [|intros ?]
  | |- wp (process_kill _ _ _) _ _ _ => apply wp_process_kill; cbv zeta; split
  | |- wp (execSync _ _) _ _ _ => apply wp_execSync; cbv zeta; split; [|intros ?]
  | |- wp (axios_get _ _ _) _ _ _ => apply wp_axios_get; cbv zeta; split; [|intros ?]
  | |- wp (if_pid _ _) _ _ _ => apply wp_if_pid; [intros ? ? ?|intros ?]
  | |- wp (when _ _) _ _ _ => apply wp_when; intros ?
  | |- wp (if ?b then _ else _) _ _ _ => destruct b eqn:?
  | |- wp (match ?x with Some _ => _ | None => _ end) _ _ _ => destruct x eqn:?
  | |- forall _ : Exn, _ => intros ?
  end.

Ltac wp_run := repeat wp_step.

(** Use a lemma about a procedure that never throws, for the procedure at
    the head of the goal. *)
Ltac wp_apply L :=
  eapply wp_mono; [apply L | cbv beta; intros ? ? ? | cbv beta; intros ? ?; try contradiction].

Tactic Notation "wp_apply" constr(L) "as" ident(w) ident(H) :=
  eapply wp_mono; [apply L | cbv beta; intros ? w H | cbv beta; intros ? ?; try contradiction].

Lemma wp_conj {A} (m : Js A) Q1 Q2 E1 E2 w :
  wp m Q1 E1 w -> wp m Q2 E2 w ->
  wp m (fun a w' => Q1 a w' /\ Q2 a w') (fun w' => E1 w' /\ E2 w') w.
Proof.
  unfold wp. destruct (m w) as [[a|e] w']; intros H1 H2; split; assumption.
Qed.

(** * What the procedures keep

    [I] is a predicate on worlds.  Each hypothesis says that [I] survives
    one kind of elementary change; each lemma needs the hypotheses for the
    changes that its procedure can make, and no others.  So a lemma also
    tells which effects its procedure can have: [stable_stop] asks for
    signals and timers to be [allowed], and for nothing else. *)

Section Stable.

Variable env : Env.
Variable I : World -> Prop.

(** The effects that [I] tolerates in the trace. *)
Variable allowed : Effect -> bool.

Hypothesis allowed_Spawn : forall cmd args, allowed (Spawn cmd args) = true.
Hypothesis allowed_ProcessKill : forall z sig, allowed (ProcessKill z sig) = true.
Hypothesis allowed_ExecSync : forall cmd, allowed (ExecSync cmd) = true.
Hypothesis allowed_SetTimeout : forall ms, allowed (SetTimeout ms) = true.
Hypothesis allowed_ConsoleLog : forall args, allowed (ConsoleLog args) = true.
Hypothesis allowed_ConsoleError : forall args, allowed (ConsoleError args) = true.
Hypothesis allowed_AxiosGet : forall u ps, allowed (AxiosGet u ps) = true.

Hypothesis I_trace :
  forall w e, allowed e = true -> I w -> I (with_trace (fun t => t ++ [e]) w).
Hypothesis I_timers : forall w f, I w -> I (with_timers f w).
Hypothesis I_alter :
  forall w f h,
    (forall p, killed (f p) = killed p) -> (forall p, pid (f p) = pid p) ->
    I w -> I (with_heap (alter_heap f h) w).
Hypothesis I_alloc :
  forall w p, I w -> I (with_heap (fun hp => hp ++ [new_process p]) w).
Hypothesis I_process : forall w p, I w -> I (with_this (put_currentProcess p) w).
Hypothesis I_ids : forall w l, I w -> I (with_this (put_processIds l) w).
Hypothesis I_station : forall w s, I w -> I (with_this (put_currentStation s) w).

Local Hint Resolve I_trace I_timers I_alloc I_process I_ids I_station : core.
Local Hint Resolve allowed_Spawn allowed_ProcessKill allowed_ExecSync
  allowed_SetTimeout allowed_ConsoleLog allowed_ConsoleError allowed_AxiosGet : core.

Local Ltac alter :=
  apply I_alter; [intros []; reflexivity | intros []; reflexivity | auto].

Local Ltac by_lemma L :=
  eapply wp_mono; [apply L; auto | | ]; [intros ? ? ? | try contradiction; auto].

(** ** Signals, timers, the sweep, the console *)

Lemma stable_kill_current force w :
  I w -> wp (kill_current env force) (fun _ => I) (fun _ => False) w.
Proof. intros H. unfold kill_current. wp_run; auto. Qed.

Lemma stable_kill_tracked force w :
  I w -> wp (kill_tracked env force) (fun _ => I) (fun _ => False) w.
Proof.
  intros H. unfold kill_tracked. wp_run.
  apply wp_for_of; [exact H|]. intros z w' _ H'. wp_run; auto.
Qed.

Lemma stable_sweep binary w :
  I w -> wp (sweep env binary) (fun _ => I) (fun _ => False) w.
Proof.
  intros H. unfold sweep. wp_run; auto.
  apply wp_for_of; [auto|]. intros line w' _ H'.
  unfold kill_parsed. wp_run; auto.
Qed.

Lemma stable_killOrphanedProcesses w :
  I w -> wp (killOrphanedProcesses env) (fun _ => I) (fun _ => False) w.
Proof.
  intros H. unfold killOrphanedProcesses. wp_run.
  by_lemma stable_sweep. by_lemma stable_sweep. auto.
Qed.

Lemma stable_run_onExit l code w :
  I w -> wp (run_onExit l code) (fun _ => I) (fun _ => False) w.
Proof. intros H. destruct l. unfold run_onExit. wp_run; auto. Qed.

Lemma stable_emit_exit h code w :
  I w -> wp (emit_exit h code) (fun _ => I) (fun _ => False) w.
Proof.
  intros H. unfold emit_exit. wp_run.
  apply wp_for_of; [alter|]. intros l w' _ H'. apply stable_run_onExit, H'.
Qed.

Lemma stable_searchStations query limit w :
  I w -> wp (searchStations env query limit) (fun _ => I) (fun _ => False) w.
Proof. intros H. unfold searchStations. wp_run; auto. Qed.

Lemma stable_searchByGenre genre limit w :
  I w -> wp (searchByGenre env genre limit) (fun _ => I) (fun _ => False) w.
Proof. intros H. unfold searchByGenre. wp_run; auto. Qed.

(** ** The procedures that also write fields of the player *)

Lemma stable_killAllProcesses force w :
  I w -> wp (killAllProcesses env force) (fun _ => I) (fun _ => False) w.
Proof.
  intros H. unfold killAllProcesses. wp_run.
  by_lemma stable_kill_current. wp_run.
  by_lemma stable_kill_tracked. wp_run. auto.
Qed.

Lemma stable_tryVLC station w :
  I w -> wp (tryVLC env station) (fun _ => I) (fun _ => False) w.
Proof. intros H. unfold tryVLC. wp_run; auto; repeat alter. Qed.

Lemma stable_play_resume station w :
  I w -> wp (play_resume env station) (fun _ => I) (fun _ => False) w.
Proof. intros H. unfold play_resume. wp_run; auto. Qed.

Lemma stable_run_onError l error w :
  I w -> wp (run_onError env l error) (fun _ => I) (fun _ => False) w.
Proof.
  intros H. destruct l; unfold run_onError; wp_run; auto.
  apply stable_tryVLC, H.
Qed.

Lemma stable_emit_error h error w :
  I w -> wp (emit_error env h error) (fun _ => I) (fun _ => False) w.
Proof.
  intros H. unfold emit_error. wp_run.
  apply wp_for_of; [exact H|]. intros l w' _ H'. apply stable_run_onError, H'.
Qed.

Lemma stable_run_timer t w :
  I w -> wp (run_timer env t) (fun _ => I) (fun _ => False) w.
Proof.
  intros H. destruct t; unfold run_timer.
  - apply stable_play_resume, H.
  - wp_run; auto.
  - wp_run; auto.
Qed.

Lemma stable_fire_timer w :
  I w -> wp (fire_timer env) (fun _ => I) (fun _ => False) w.
Proof.
  intros H. unfold fire_timer. wp_run.
  destruct (timers w) as [|t q]; wp_run; [exact H|].
  apply stable_run_timer. auto.
Qed.

Lemma stable_fire_through_resume pending w :
  I w -> wp (fire_through_resume env pending) (fun _ => I) (fun _ => False) w.
Proof.
  revert w. induction pending as [|t rest IH]; intros w H; simpl; wp_run; [exact H|].
  by_lemma stable_fire_timer. wp_run; auto.
Qed.

Lemma stable_await_resume w :
  I w -> wp (await_resume env) (fun _ => I) (fun _ => False) w.
Proof.
  intros H. unfold await_resume. wp_run; [|exact H].
  apply stable_fire_through_resume, H.
Qed.

(** What the runtime does on its own. *)
Lemma stable_async a w :
  is_async a = true -> I w -> wp (step env a) (fun _ => I) (fun _ => False) w.
Proof.
  intros Ha H. destruct a; try discriminate Ha; simpl.
  - apply stable_emit_error, H.
  - apply stable_emit_exit, H.
  - apply stable_fire_timer, H.
Qed.

Lemma stable_exec_async actions w :
  Forall (fun a => is_async a = true) actions ->
  I w -> wp (exec env actions) (fun _ => I) (fun _ => False) w.
Proof.
  intros Hall H. unfold exec. apply wp_for_of; [exact H|].
  intros a w' Ha H'. apply stable_async; [|exact H'].
  rewrite Forall_forall in Hall. apply Hall, Ha.
Qed.

(** ** The calls, which also write the station *)

Lemma stable_stop w :
  I w -> wp (stop env) (fun _ => I) (fun _ => False) w.
Proof.
  intros H. unfold stop. wp_run. by_lemma stable_killAllProcesses. wp_run. auto.
Qed.

Lemma stable_forceStop w :
  I w -> wp (forceStop env) (fun _ => I) (fun _ => False) w.
Proof.
  intros H. unfold forceStop. wp_run. by_lemma stable_killAllProcesses. wp_run.
  by_lemma stable_killOrphanedProcesses. wp_run. auto.
Qed.

Lemma stable_play_begin station w :
  I w -> wp (play_begin env station) (fun _ => I) (fun _ => False) w.
Proof.
  intros H. unfold play_begin, play_try. wp_run. by_lemma stable_stop. wp_run.
  - by_lemma stable_tryVLC. auto.
  - auto 10; repeat alter.
  - auto 10; repeat alter.
Qed.

Lemma stable_step a w :
  I w -> wp (step env a) (fun _ => I) (fun _ => False) w.
Proof.
  intros H. destruct a; simpl.
  - apply stable_play_begin, H.
  - apply stable_stop, H.
  - apply stable_forceStop, H.
  - wp_run. by_lemma stable_searchStations. wp_run. auto.
  - wp_run. by_lemma stable_searchByGenre. wp_run. auto.
  - apply stable_emit_error, H.
  - apply stable_emit_exit, H.
  - apply stable_fire_timer, H.
Qed.

End Stable.

(** * Facts about the heap of [ChildProcess] objects *)

Lemma length_alter_heap f h hp : length (alter_heap f h hp) = length hp.
Proof.
  unfold alter_heap. destruct (hp !! h); [apply length_insert | reflexivity].
Qed.

Lemma lookup_alter_heap f h hp i :
  alter_heap f h hp !! i = if decide (h = i) then f <$> hp !! i else hp !! i.
Proof.
  unfold alter_heap. destruct (hp !! h) as [p|] eqn:Hh.
  - destruct (decide (h = i)) as [<-|Hne].
    + rewrite list_lookup_insert_eq by (eapply lookup_lt_Some; exact Hh).
      rewrite Hh. reflexivity.
    + apply list_lookup_insert_ne, Hne.
  - destruct (decide (h = i)) as [<-|Hne]; [rewrite Hh|]; reflexivity.
Qed.

Lemma Forall_alter_heap (P : ChildProcess -> Prop) f h hp :
  (forall p, P p -> P (f p)) -> Forall P hp -> Forall P (alter_heap f h hp).
Proof.
  intros Hf Hall. unfold alter_heap. destruct (hp !! h) as [p|] eqn:Hh; [|exact Hall].
  apply Forall_insert; [exact Hall|]. apply Hf.
  rewrite Forall_lookup in Hall. eapply Hall, Hh.
Qed.

(** Reading a field that [f] does not change, through a reference. *)
Lemma deref_alter_heap {A} (field : ChildProcess -> A) f h w i :
  (forall p, field (f p) = field p) ->
  field (deref (with_heap (alter_heap f h) w) i) = field (deref w i).
Proof.
  intros Hf. unfold deref. simpl. rewrite lookup_alter_heap.
  destruct (decide (h = i)); [|reflexivity].
  destruct (heap w !! i); simpl; [apply Hf | reflexivity].
Qed.

(** * Nothing the program does throws *)

Lemma step_returns env a w : fst (step env a w) = Normal tt.
Proof.
  apply (wp_total_elim _ (fun _ _ => True)).
  apply (stable_step env (fun _ => True) any_effect); auto.
Qed.

Lemma exec_returns env actions w : fst (exec env actions w) = Normal tt.
Proof.
  apply (wp_total_elim _ (fun _ _ => True)). unfold exec.
  apply wp_for_of; [exact Logic.I|]. intros a w' _ _.
  apply (stable_step env (fun _ => True) any_effect); auto.
Qed.

(** * Invariants of the reachable worlds *)

Lemma unkilled_step env a w : unkilled w -> unkilled (snd (step env a w)).
Proof.
  intros H. apply (wp_total_elim _ (fun _ => unkilled)).
  apply (stable_step env unkilled any_effect); auto; unfold unkilled; simpl.
  - intros w0 f h Hk _ H0. apply Forall_alter_heap; [|exact H0].
    intros p Hp. rewrite Hk. exact Hp.
  - intros w0 p H0. apply Forall_app. split; [exact H0|].
    constructor; [reflexivity | constructor].
Qed.

Lemma unkilled_reachable env w : reachable env w -> unkilled w.
Proof.
  induction 1 as [|w a _ IH]; [constructor | apply unkilled_step, IH].
Qed.

Lemma unkilled_deref w h : unkilled w -> killed (deref w h) = false.
Proof.
  intros H. unfold deref. destruct (heap w !! h) as [p|] eqn:Hh; [|reflexivity].
  unfold unkilled in H. rewrite Forall_lookup in H. eapply H, Hh.
Qed.

Section Coherent.

Variable env : Env.

Lemma coherent_alter w f h : coherent w -> coherent (with_heap (alter_heap f h) w).
Proof.
  intros [H1 H2]. split; [exact H1|]. intros i Hi. simpl.
  rewrite length_alter_heap. apply H2, Hi.
Qed.

Lemma coherent_tryVLC station w :
  coherent w -> wp (tryVLC env station) (fun _ => coherent) (fun _ => False) w.
Proof.
  intros H. unfold tryVLC. wp_run; try exact H.
  all: repeat apply coherent_alter.
  all: split; [intros Hn; discriminate Hn|].
  all: intros i Hi; simpl in *; injection Hi as <-; rewrite length_app; simpl; lia.
Qed.

Lemma coherent_emit_error h error w :
  coherent w -> wp (emit_error env h error) (fun _ => coherent) (fun _ => False) w.
Proof.
  intros H. unfold emit_error. wp_run.
  apply wp_for_of; [exact H|]. intros l w' _ H'.
  destruct l; unfold run_onError; wp_run; try exact H'.
  apply coherent_tryVLC, H'.
Qed.

(** After [killAllProcesses] no identifier is tracked. *)
Lemma killAllProcesses_clears force w :
  wp (killAllProcesses env force)
     (fun _ w' => this w' = put_processIds [] (this w) /\ heap w' = heap w)
     (fun _ => False) w.
Proof.
  unfold killAllProcesses. wp_run.
  wp_apply (stable_kill_current env
              (fun w' => this w' = this w /\ heap w' = heap w) any_effect)
    as w1 H1; auto.
  wp_run.
  wp_apply (stable_kill_tracked env
              (fun w' => this w' = this w /\ heap w' = heap w) any_effect)
    as w2 H2; auto.
  wp_run. simpl. destruct H2 as [-> ->]. split; reflexivity.
Qed.

Lemma stop_clears w :
  wp (stop env)
     (fun _ w' => this w' = new_RadioPlayer /\ heap w' = heap w)
     (fun _ => False) w.
Proof.
  unfold stop. wp_run. wp_apply killAllProcesses_clears as w1 H1.
  wp_run. simpl. destruct H1 as [-> ->]. split; reflexivity.
Qed.

Lemma forceStop_clears w :
  wp (forceStop env)
     (fun _ w' => this w' = new_RadioPlayer /\ heap w' = heap w)
     (fun _ => False) w.
Proof.
  unfold forceStop. wp_run. wp_apply killAllProcesses_clears as w1 H1.
  wp_run. destruct H1 as [Hthis Hheap].
  wp_apply (stable_killOrphanedProcesses env
              (fun w' => this w' = this w1 /\ heap w' = heap w1) any_effect)
    as w2 H2; auto.
  wp_run. simpl. destruct H2 as [-> ->]. rewrite Hthis, Hheap. split; reflexivity.
Qed.

Lemma coherent_cleared w : this w = new_RadioPlayer -> coherent w.
Proof.
  intros H. split.
  - intros _. rewrite H. reflexivity.
  - intros h Hh. rewrite H in Hh. discriminate Hh.
Qed.

Lemma coherent_play_begin station w :
  wp (play_begin env station) (fun _ => coherent) (fun _ => False) w.
Proof.
  unfold play_begin, play_try. wp_run. wp_apply stop_clears as w1 H1.
  destruct H1 as [Hthis Hheap]. apply coherent_cleared in Hthis.
  wp_run.
  - wp_apply coherent_tryVLC as w2 H2; [|assumption]. exact Hthis.
  - repeat apply coherent_alter.
    split; [intros Hn; discriminate Hn|].
    intros i Hi; simpl in *; injection Hi as <-; rewrite length_app; simpl; lia.
  - repeat apply coherent_alter.
    split; [intros Hn; discriminate Hn|].
    intros i Hi; simpl in *; injection Hi as <-; rewrite length_app; simpl; lia.
Qed.

Lemma coherent_step a w : coherent w -> coherent (snd (step env a w)).
Proof.
  intros H. apply (wp_total_elim _ (fun _ => coherent)). destruct a; simpl.
  - apply coherent_play_begin.
  - wp_apply stop_clears as w1 H1. apply coherent_cleared, H1.
  - wp_apply forceStop_clears as w1 H1. apply coherent_cleared, H1.
  - wp_run. wp_apply (stable_searchStations env coherent any_effect) as w1 H1; auto.
  - wp_run. wp_apply (stable_searchByGenre env coherent any_effect) as w1 H1; auto.
  - apply coherent_emit_error, H.
  - apply (stable_emit_exit coherent any_effect); auto.
    intros; apply coherent_alter; assumption.
  - apply (stable_fire_timer env coherent any_effect); auto.
Qed.

Lemma coherent_reachable w : reachable env w -> coherent w.
Proof.
  induction 1 as [|w a _ IH]; [apply coherent_cleared; reflexivity|].
  apply coherent_step, IH.
Qed.

(** The default of [deref] is never used by a reachable program. *)
Lemma valid_reachable w h :
  reachable env w -> currentProcess (this w) = Some h -> is_Some (heap w !! h).
Proof.
  intros Hr Hh. apply lookup_lt_is_Some. apply (coherent_reachable w Hr), Hh.
Qed.

End Coherent.

(** * The current station *)

Section Station.

Variable env : Env.

Lemma play_begin_station station w :
  wp (play_begin env station) (fun _ => station_is (Some station)) (fun _ => False) w.
Proof.
  unfold play_begin, play_try. wp_run.
  wp_apply (stable_stop env (fun _ => True) any_effect) as w1 H1; auto.
  wp_run; try reflexivity.
  wp_apply (stable_tryVLC env (station_is (Some station)) any_effect) as w2 H2; auto.
  reflexivity.
Qed.

Lemma exec_async_station c actions w :
  Forall (fun a => is_async a = true) actions ->
  station_is c w ->
  wp (exec env actions) (fun _ => station_is c) (fun _ => False) w.
Proof.
  intros Hall H.
  apply (stable_exec_async env (station_is c) any_effect); auto.
Qed.

Lemma await_resume_station c w :
  station_is c w ->
  wp (await_resume env) (fun _ => station_is c) (fun _ => False) w.
Proof.
  intros H. apply (stable_await_resume env (station_is c) any_effect); auto.
Qed.

End Station.

(** C5: for every station with a well-formed (non-empty) stream URL,
    [await play(station)] followed at once by [getCurrentStation()] gives
    that station, whatever the environment does to the spawned process
    during the delay of [play]; and [play] returns without throwing. *)
Theorem play_then_getCurrentStation env station during w :
  truthy_string (url station) = true ->
  Forall (fun a => is_async a = true) during ->
  fst (play env station during w) = Normal tt /\
  getCurrentStation (snd (play env station during w)) = Some station.
Proof.
  intros _ Hduring. apply (wp_total_elim _ (fun _ => station_is (Some station))).
  unfold play. wp_run.
  wp_apply play_begin_station as w1 H1. wp_run.
  wp_apply exec_async_station as w2 H2; [exact Hduring | exact H1 |].
  apply await_resume_station, H2.
Qed.

Lemma play_then_getCurrentStation_witness :
  truthy_string (url test_fm) = true /\
  fst (play healthy test_fm [] initial) = Normal tt /\
  getCurrentStation (snd (play healthy test_fm [] initial)) = Some test_fm.
Proof.
  split; [reflexivity|].
  apply (play_then_getCurrentStation healthy test_fm [] initial).
  - reflexivity.
  - constructor.
Defined.

(** C9: [play(station)] records the station before it tries to spawn, and
    nothing that happens afterwards on the runtime's side takes it back:
    for every environment (so also when [spawn] throws for mpv, for vlc or
    for both) and every sequence of ['error'] events with any message,
    ['exit'] events and timers after the call, [getCurrentStation()] is
    still the station, and nothing has thrown. *)
Theorem play_records_station_despite_failure env station events w :
  Forall (fun a => is_async a = true) events ->
  fst (exec env (CallPlay station :: events) w) = Normal tt /\
  getCurrentStation (snd (exec env (CallPlay station :: events) w)) = Some station.
Proof.
  intros Hevents. apply (wp_total_elim _ (fun _ => station_is (Some station))).
  unfold exec. simpl. wp_run.
  wp_apply play_begin_station as w1 H1.
  apply exec_async_station; assumption.
Qed.

Lemma play_records_station_despite_failure_witness :
  Forall (fun a => is_async a = true)
    [EmitError 0 (JsError "spawn mpv EACCES"); EmitError 0 (ENOENT "mpv");
     EmitError 1 (ENOENT "vlc"); FireTimer] /\
  fst (exec no_player
         [CallPlay test_fm; EmitError 0 (JsError "spawn mpv EACCES");
          EmitError 0 (ENOENT "mpv"); EmitError 1 (ENOENT "vlc"); FireTimer] initial)
  = Normal tt /\
  getCurrentStation
    (snd (exec no_player
            [CallPlay test_fm; EmitError 0 (JsError "spawn mpv EACCES");
             EmitError 0 (ENOENT "mpv"); EmitError 1 (ENOENT "vlc"); FireTimer] initial))
  = Some test_fm.
Proof.
  split; [repeat constructor|].
  apply (play_records_station_despite_failure no_player test_fm
           [EmitError 0 (JsError "spawn mpv EACCES"); EmitError 0 (ENOENT "mpv");
            EmitError 1 (ENOENT "vlc"); FireTimer] initial).
  repeat constructor.
Defined.

(** The same when [spawn] itself throws, for mpv and then for vlc. *)
Example play_records_station_when_spawn_throws :
  let w := snd (play_begin spawn_throws test_fm initial) in
  getCurrentStation w = Some test_fm /\
  currentProcess (this w) = None /\
  trace w
  = [Spawn "mpv" (mpv_args test_fm);
     ConsoleError ["❌ Failed to start playback:"; "spawn mpv EACCES"];
     Spawn "vlc" (vlc_args test_fm);
     ConsoleError ["❌ Failed to start VLC:"; "spawn vlc EACCES"]].
Proof. repeat split. Qed.

(** * Nothing is playing *)

(** On a reachable world [isPlaying()] only tells whether there is a
    current [ChildProcess] object. *)
Lemma isPlaying_reachable env w :
  reachable env w -> isPlaying w = true <-> currentProcess (this w) <> None.
Proof.
  intros Hr. unfold isPlaying. destruct (currentProcess (this w)) as [h|].
  - rewrite (unkilled_deref w h (unkilled_reachable env w Hr)). simpl.
    split; [discriminate | reflexivity].
  - split; [discriminate | intros H; contradiction H; reflexivity].
Qed.

Lemma not_playing_idle env w :
  reachable env w -> isPlaying w = false ->
  currentProcess (this w) = None /\ processIds (this w) = [].
Proof.
  intros Hr Hp.
  assert (Hcp : currentProcess (this w) = None).
  { destruct (currentProcess (this w)) as [h|] eqn:Hh; [|reflexivity].
    assert (isPlaying w = true) as Ht; [|rewrite Ht in Hp; discriminate Hp].
    apply (isPlaying_reachable env w Hr). rewrite Hh. discriminate. }
  split; [exact Hcp|]. apply (coherent_reachable env w Hr), Hcp.
Qed.

(** With no current process and no tracked identifier, [stop] only
    clears the station. *)
Lemma stop_idle env w :
  currentProcess (this w) = None -> processIds (this w) = [] ->
  stop env w = (Normal tt, with_this (fun _ => new_RadioPlayer) w).
Proof.
  intros Hcp Hids.
  unfold stop, killAllProcesses, kill_current, kill_tracked, bind, gets.
  rewrite Hcp. unfold ret. rewrite Hids. reflexivity.
Qed.

(** C7: when nothing is playing ([isPlaying()] is false, in any world the
    program can reach), [stop()] returns normally, performs no effect at
    all (the trace is unchanged: no process is spawned, no signal is
    sent), sets no timer, and [isPlaying()] is still false. *)
Theorem stop_when_idle_is_noop env w :
  reachable env w ->
  isPlaying w = false ->
  fst (stop env w) = Normal tt /\
  trace (snd (stop env w)) = trace w /\
  timers (snd (stop env w)) = timers w /\
  heap (snd (stop env w)) = heap w /\
  isPlaying (snd (stop env w)) = false.
Proof.
  intros Hr Hp. destruct (not_playing_idle env w Hr Hp) as [Hcp Hids].
  rewrite (stop_idle env w Hcp Hids). simpl. repeat split; reflexivity.
Qed.

Lemma stop_when_idle_is_noop_witness :
  let w := snd (step healthy CallStop (snd (step healthy (CallPlay test_fm) initial))) in
  isPlaying w = false /\
  fst (stop healthy w) = Normal tt /\
  trace (snd (stop healthy w)) = trace w /\
  timers (snd (stop healthy w)) = timers w /\
  heap (snd (stop healthy w)) = heap w /\
  isPlaying (snd (stop healthy w)) = false.
Proof.
  split; [reflexivity|].
  apply (stop_when_idle_is_noop healthy
           (snd (step healthy CallStop (snd (step healthy (CallPlay test_fm) initial))))).
  - apply reachable_step, reachable_step, reachable_initial.
  - reflexivity.
Defined.

(** * forceStop *)

Lemma killOrphanedProcesses_frame env w :
  wp (killOrphanedProcesses env)
     (fun _ w' => this w' = this w /\ heap w' = heap w /\ timers w' = timers w)
     (fun _ => False) w.
Proof.
  apply (stable_killOrphanedProcesses env
           (fun w' => this w' = this w /\ heap w' = heap w /\ timers w' = timers w)
           any_effect); auto.
Qed.

Lemma killAllProcesses_idle env force s hp tm tr :
  killAllProcesses env force (idle s hp tm tr) = (Normal tt, idle s hp tm tr).
Proof. reflexivity. Qed.

(** From an idle world [forceStop] is the orphan sweep and nothing else. *)
Lemma forceStop_idle env s hp tm tr :
  let w := idle s hp tm tr in
  fst (forceStop env w) = Normal tt /\
  trace (snd (forceStop env w)) = trace (snd (killOrphanedProcesses env w)) /\
  heap (snd (forceStop env w)) = hp /\
  timers (snd (forceStop env w)) = tm /\
  this (snd (forceStop env w)) = new_RadioPlayer.
Proof.
  intros w.
  pose proof (wp_total_elim _ _ _ (killOrphanedProcesses_frame env w)) as [Hc Hf].
  assert (Hrun : forceStop env w =
                 (Normal tt,
                  with_this (put_currentStation None)
                    (with_this (put_currentProcess None)
                       (snd (killOrphanedProcesses env w))))).
  { unfold forceStop, bind at 1. unfold w at 1. rewrite killAllProcesses_idle.
    fold w. unfold bind at 1.
    destruct (killOrphanedProcesses env w) as [c ws] eqn:Hko.
    simpl in Hc. rewrite Hc. reflexivity. }
  rewrite Hrun. simpl. destruct Hf as (Hthis & Hheap & Htimers).
  repeat split; try assumption.
  unfold put_currentStation, put_currentProcess. simpl. rewrite Hthis. reflexivity.
Qed.

Example forceStop_swallows_failures :
  let w := snd (play_begin hostile test_fm initial) in
  fst (forceStop hostile w) = Normal tt /\
  trace (snd (forceStop hostile w))
  = trace w ++
    [ProcessKill (-4321) SIGKILL; ProcessKill (-4321) SIGKILL;
     ExecSync "pgrep mpv"; ProcessKill 12 SIGKILL; ProcessKill 34 SIGKILL;
     ExecSync "pgrep vlc"] /\
  timers (snd (forceStop hostile w)) = timers w /\
  this (snd (forceStop hostile w)) = new_RadioPlayer.
Proof. repeat split. Qed.

(** C6: for every environment (so also when every [process.kill] throws
    ESRCH or EPERM, when [pgrep] fails or prints anything at all) and from
    every world, [forceStop()] returns normally and leaves nothing
    playing; a second call right after it returns normally too, and is
    the orphan sweep alone; and from any world in which nothing is playing
    [forceStop()] does nothing but the orphan sweep. *)
Theorem forceStop_never_raises env w s hp tm tr :
  let w1 := snd (forceStop env w) in
  let w2 := snd (forceStop env w1) in
  (fst (forceStop env w) = Normal tt /\
   this w1 = new_RadioPlayer /\ isPlaying w1 = false) /\
  (fst (forceStop env w1) = Normal tt /\
   trace w2 = trace (snd (killOrphanedProcesses env w1)) /\
   heap w2 = heap w1 /\ timers w2 = timers w1 /\ this w2 = new_RadioPlayer) /\
  (fst (forceStop env (idle s hp tm tr)) = Normal tt /\
   trace (snd (forceStop env (idle s hp tm tr)))
   = trace (snd (killOrphanedProcesses env (idle s hp tm tr))) /\
   heap (snd (forceStop env (idle s hp tm tr))) = hp /\
   timers (snd (forceStop env (idle s hp tm tr))) = tm /\
   this (snd (forceStop env (idle s hp tm tr))) = new_RadioPlayer).
Proof.
  intros w1 w2.
  pose proof (wp_total_elim _ _ _ (forceStop_clears env w)) as [Hc [Hthis _]].
  fold w1 in Hthis.
  assert (Hidle : w1 = idle None (heap w1) (timers w1) (trace w1)).
  { destruct w1 as [r hp1 tm1 tr1]. simpl in *. rewrite Hthis. reflexivity. }
  split; [|split].
  - split; [exact Hc|]. split; [exact Hthis|].
    unfold isPlaying. rewrite Hthis. reflexivity.
  - subst w2. rewrite Hidle. apply forceStop_idle.
  - apply forceStop_idle.
Qed.

(** * isPlaying and the death of the process *)

(** An ['exit'] event changes neither the fields of the player nor what
    [isPlaying()] answers. *)
Lemma emit_exit_keeps_isPlaying h code w :
  fst (emit_exit h code w) = Normal tt /\
  this (snd (emit_exit h code w)) = this w /\
  isPlaying (snd (emit_exit h code w)) = isPlaying w.
Proof.
  apply (wp_total_elim _ (fun _ w' => this w' = this w /\ isPlaying w' = isPlaying w)).
  apply (stable_emit_exit
           (fun w' => this w' = this w /\ isPlaying w' = isPlaying w) any_effect); auto.
  intros w0 f i Hk _ [Hthis Hplay]. split; [exact Hthis|].
  rewrite <- Hplay. unfold isPlaying. simpl.
  destruct (currentProcess (this w0)) as [j|]; [|reflexivity].
  rewrite (deref_alter_heap killed f i w0 j Hk). reflexivity.
Qed.

(** C1: the scenario of the specification, run on the code.  mpv starts
    with pid 1000; during the delay of [play] the process exits with code
    1.  Nothing is thrown, the object is marked as exited, the notice is
    printed, and [isPlaying()] still answers true; the continuation of
    [play], which tests the same flag, prints that the station is playing. *)
Theorem isPlaying_true_after_nonzero_exit :
  let r := play healthy test_fm [EmitExit 0 (Some 1%Z)] initial in
  fst r = Normal tt /\
  currentProcess (this (snd r)) = Some 0 /\
  pid (deref (snd r) 0) = Some 1000%Z /\
  exited (deref (snd r) 0) = true /\
  killed (deref (snd r) 0) = false /\
  trace (snd r)
  = [Spawn "mpv" (mpv_args test_fm); SetTimeout 1000;
     ConsoleLog ["🔇 Playback stopped"]; ConsoleLog ["✅ Now playing!"]] /\
  isPlaying (snd r) = true.
Proof. repeat split. Qed.

(** * The fallback to the secondary backend *)

Lemma spawns_snoc t e :
  spawns (t ++ [e]) = if is_spawn e then spawns t ++ [e] else spawns t.
Proof.
  unfold spawns. rewrite List.filter_app. simpl.
  destruct (is_spawn e); [reflexivity | apply app_nil_r].
Qed.

(** [tryVLC] launches vlc once and launches nothing else. *)
Lemma tryVLC_spawns_once env station w :
  spawns (trace (snd (tryVLC env station w)))
  = spawns (trace w) ++ [Spawn "vlc" (vlc_args station)].
Proof.
  apply (wp_total_elim _
           (fun _ w' => spawns (trace w')
                        = spawns (trace w) ++ [Spawn "vlc" (vlc_args station)])).
  unfold tryVLC. wp_run; simpl; rewrite ?spawns_snoc; reflexivity.
Qed.

(** Binary-not-found on the primary backend: one launch of the
    secondary. *)
Lemma primary_ENOENT_falls_back_once env station error w :
  includes "ENOENT" (message error) = true ->
  spawns (trace (snd (run_onError env (PlayOnError station) error w)))
  = spawns (trace w) ++ [Spawn "vlc" (vlc_args station)].
Proof.
  intros H. simpl. rewrite H. apply tryVLC_spawns_once.
Qed.

(** Any error of the secondary backend: no launch at all. *)
Lemma secondary_error_no_fallback env error w :
  spawns (trace (snd (run_onError env TryVLCOnError error w))) = spawns (trace w).
Proof.
  apply (wp_total_elim _ (fun _ w' => spawns (trace w') = spawns (trace w))).
  unfold run_onError. wp_run; simpl; rewrite ?spawns_snoc; reflexivity.
Qed.

(** Any other error of the primary backend: no launch either. *)
Lemma primary_other_error_no_fallback env station error w :
  includes "ENOENT" (message error) = false ->
  spawns (trace (snd (run_onError env (PlayOnError station) error w)))
  = spawns (trace w).
Proof.
  intros H. simpl. rewrite H. simpl. rewrite spawns_snoc. reflexivity.
Qed.

(** C3: neither binary is installed.  [play] launches mpv, the
    binary-not-found error launches vlc once, the binary-not-found error
    of vlc launches nothing and prints the install hint, no identifier is
    tracked, and yet [isPlaying()] answers true. *)
Theorem isPlaying_true_when_no_player_found :
  let r := play no_player test_fm
             [EmitError 0 (ENOENT "mpv"); EmitError 1 (ENOENT "vlc")] initial in
  fst r = Normal tt /\
  spawns (trace (snd r))
  = [Spawn "mpv" (mpv_args test_fm); Spawn "vlc" (vlc_args test_fm)] /\
  trace (snd r)
  = [Spawn "mpv" (mpv_args test_fm); SetTimeout 1000;
     Spawn "vlc" (vlc_args test_fm);
     ConsoleError ["❌ Neither mpv nor VLC found. Please install one of them:"];
     ConsoleLog ["  macOS: brew install mpv  or  brew install vlc"];
     ConsoleLog ["  Linux: sudo apt install mpv  or  sudo apt install vlc"];
     ConsoleLog ["✅ Now playing!"]] /\
  processIds (this (snd r)) = [] /\
  currentProcess (this (snd r)) = Some 1 /\
  pid (deref (snd r) 1) = None /\
  isPlaying (snd r) = true.
Proof. repeat split. Qed.

(** * The directory search *)

Lemma searchStations_run env query limit w :
  searchStations env query limit w
  = match axios_result env (trace w) search_endpoint (name_params query limit) with
    | inr data =>
        (Normal (to_results data),
         with_trace (fun t => t ++ [AxiosGet search_endpoint (name_params query limit)]) w)
    | inl error =>
        (Normal [],
         with_trace (fun t => t ++ [ConsoleError ["❌ Search failed:"; message error]])
           (with_trace
              (fun t => t ++ [AxiosGet search_endpoint (name_params query limit)]) w))
    end.
Proof.
  unfold searchStations, try_catch, bind, axios_get.
  destruct (axios_result env (trace w) search_endpoint (name_params query limit));
    reflexivity.
Qed.

Lemma searchByGenre_run env genre limit w :
  searchByGenre env genre limit w
  = match axios_result env (trace w) search_endpoint (tag_params genre limit) with
    | inr data =>
        (Normal (to_results data),
         with_trace (fun t => t ++ [AxiosGet search_endpoint (tag_params genre limit)]) w)
    | inl error =>
        (Normal [],
         with_trace
           (fun t => t ++ [ConsoleError ["❌ Genre search failed:"; message error]])
           (with_trace
              (fun t => t ++ [AxiosGet search_endpoint (tag_params genre limit)]) w))
    end.
Proof.
  unfold searchByGenre, try_catch, bind, axios_get.
  destruct (axios_result env (trace w) search_endpoint (tag_params genre limit));
    reflexivity.
Qed.

Lemma length_to_results data : length (to_results data) <= length data.
Proof.
  unfold to_results. rewrite length_map. apply List.filter_length_le.
Qed.

Lemma filter_split_length {A} (f : A -> bool) (l : list A) :
  length (List.filter f l) + length (List.filter (fun x => negb (f x)) l) = length l.
Proof.
  induction l as [|x l IH]; simpl; [reflexivity|].
  destruct (f x); simpl; lia.
Qed.

(** The claim of C2 fails: the directory answers with three working
    entries to a request with limit 2, and both searches return all
    three. *)
Lemma search_exceeds_limit :
  ~ (Z.of_nat (length (returned (searchStations (directory three_working) "jazz" 2 initial)))
     <= 2)%Z /\
  ~ (Z.of_nat (length (returned (searchByGenre (directory three_working) "jazz" 2 initial)))
     <= 2)%Z.
Proof. split; vm_compute; intros H; apply H; reflexivity. Qed.

Lemma returned_searchStations env query limit w :
  returned (searchStations env query limit w)
  = to_results (answer env w (name_params query limit)).
Proof.
  unfold returned, answer. rewrite searchStations_run.
  destruct (axios_result env (trace w) search_endpoint (name_params query limit));
    reflexivity.
Qed.

Lemma returned_searchByGenre env genre limit w :
  returned (searchByGenre env genre limit w)
  = to_results (answer env w (tag_params genre limit)).
Proof.
  unfold returned, answer. rewrite searchByGenre_run.
  destruct (axios_result env (trace w) search_endpoint (tag_params genre limit));
    reflexivity.
Qed.

Lemma request_searchStations env query limit w :
  In (AxiosGet search_endpoint (name_params query limit))
     (trace (snd (searchStations env query limit w))).
Proof.
  rewrite searchStations_run.
  destruct (axios_result env (trace w) search_endpoint (name_params query limit));
    simpl; rewrite ?in_app_iff; simpl; auto.
Qed.

Lemma request_searchByGenre env genre limit w :
  In (AxiosGet search_endpoint (tag_params genre limit))
     (trace (snd (searchByGenre env genre limit w))).
Proof.
  rewrite searchByGenre_run.
  destruct (axios_result env (trace w) search_endpoint (tag_params genre limit));
    simpl; rewrite ?in_app_iff; simpl; auto.
Qed.

(** C2, amended: the searches pass [limit] on to the directory, as the
    [limit] parameter of the request, and do not truncate the answer
    themselves.  The list they return has at most as many entries as the
    directory's answer, so it stays within [limit] whenever the answer
    does. *)
Theorem search_length_within_response env text limit w :
  let by_name := answer env w (name_params text limit) in
  let by_tag := answer env w (tag_params text limit) in
  (In (AxiosGet search_endpoint (name_params text limit))
      (trace (snd (searchStations env text limit w))) /\
   param_limit (name_params text limit) = limit /\
   length (returned (searchStations env text limit w)) <= length by_name /\
   ((Z.of_nat (length by_name) <= limit)%Z ->
    (Z.of_nat (length (returned (searchStations env text limit w))) <= limit)%Z)) /\
  (In (AxiosGet search_endpoint (tag_params text limit))
      (trace (snd (searchByGenre env text limit w))) /\
   param_limit (tag_params text limit) = limit /\
   length (returned (searchByGenre env text limit w)) <= length by_tag /\
   ((Z.of_nat (length by_tag) <= limit)%Z ->
    (Z.of_nat (length (returned (searchByGenre env text limit w))) <= limit)%Z)).
Proof.
  intros by_name by_tag.
  pose proof (length_to_results by_name) as Hn.
  pose proof (length_to_results by_tag) as Ht.
  rewrite returned_searchStations, returned_searchByGenre.
  fold by_name by_tag.
  split; (split; [|split; [reflexivity|split; [assumption|lia]]]).
  - apply request_searchStations.
  - apply request_searchByGenre.
Qed.

(** The answer stays within the limit, and so does the result. *)
Example search_within_limit_example :
  length (returned (searchStations (directory three_working) "jazz" 3 initial)) = 3 /\
  length (returned (searchByGenre (directory one_broken) "jazz" 3 initial)) = 2.
Proof. split; reflexivity. Qed.

Lemma filter_sublist {A} (f : A -> bool) (l : list A) : List.filter f l `sublist_of` l.
Proof.
  induction l as [|x l IH]; simpl; [constructor|].
  destruct (f x); [apply sublist_skip | apply sublist_cons]; exact IH.
Qed.

Lemma is_working_spec e : is_working e = true <-> RadioBrowserStation.lastcheckok e = 1%Z.
Proof. unfold is_working. apply Z.eqb_eq. Qed.

(** What [to_results] keeps of an answer. *)
Lemma to_results_spec data :
  exists kept,
    to_results data = List.map to_RadioStation kept /\
    kept `sublist_of` data /\
    (forall e, In e kept <->
               In e data /\ RadioBrowserStation.lastcheckok e = 1%Z) /\
    length kept + count_not_ok data = length data.
Proof.
  exists (List.filter is_working data). split; [reflexivity|].
  split; [apply filter_sublist|]. split.
  - intros e. rewrite List.filter_In, is_working_spec. reflexivity.
  - apply (filter_split_length is_working).
Qed.

(** C8: an entry whose last-check-ok flag differs from 1 is not in the
    list that [searchStations] and [searchByGenre] return.  The result is
    the image, in the directory's order, of exactly the entries of the
    answer whose flag is 1: of [n] entries with [k] marked not-ok it has
    [n - k]. *)
Theorem search_excludes_not_ok env text limit w :
  (exists kept,
     returned (searchStations env text limit w) = List.map to_RadioStation kept /\
     kept `sublist_of` answer env w (name_params text limit) /\
     (forall e, In e kept <->
                In e (answer env w (name_params text limit)) /\
                RadioBrowserStation.lastcheckok e = 1%Z) /\
     length (returned (searchStations env text limit w))
     = length (answer env w (name_params text limit))
       - count_not_ok (answer env w (name_params text limit))) /\
  (exists kept,
     returned (searchByGenre env text limit w) = List.map to_RadioStation kept /\
     kept `sublist_of` answer env w (tag_params text limit) /\
     (forall e, In e kept <->
                In e (answer env w (tag_params text limit)) /\
                RadioBrowserStation.lastcheckok e = 1%Z) /\
     length (returned (searchByGenre env text limit w))
     = length (answer env w (tag_params text limit))
       - count_not_ok (answer env w (tag_params text limit))).
Proof.
  rewrite returned_searchStations, returned_searchByGenre. split.
  - destruct (to_results_spec (answer env w (name_params text limit)))
      as (kept & Hmap & Hsub & Hin & Hlen).
    exists kept. split; [exact Hmap|]. split; [exact Hsub|]. split; [exact Hin|].
    rewrite Hmap, length_map. lia.
  - destruct (to_results_spec (answer env w (tag_params text limit)))
      as (kept & Hmap & Hsub & Hin & Hlen).
    exists kept. split; [exact Hmap|]. split; [exact Hsub|]. split; [exact Hin|].
    rewrite Hmap, length_map. lia.
Qed.

(** The example of the specification: three entries, one marked not-ok,
    two results. *)
Example search_one_broken_example :
  List.map name (returned (searchStations (directory one_broken) "jazz" 20 initial))
  = ["Jazz One"; "Jazz Three"] /\
  List.map name (returned (searchByGenre (directory one_broken) "jazz" 20 initial))
  = ["Jazz One"; "Jazz Three"].
Proof. split; reflexivity. Qed.

(** * The URL of a search result *)

(** The claim of C10 fails in its last part: the resolved URL is present
    but empty, the raw url is absent, and the station that the search
    returns has no url. *)
Lemma url_absent_though_resolved_present :
  let e := entry "Silent" (Some "") None 1 in
  RadioBrowserStation.url_resolved e = Some "" /\
  returned (searchStations (directory [e]) "silent" 20 initial) = [to_RadioStation e] /\
  returned (searchByGenre (directory [e]) "silent" 20 initial) = [to_RadioStation e] /\
  url (to_RadioStation e) = None.
Proof. repeat split. Qed.

(** C10, amended: every station that a search returns is made from an
    entry of the answer by [to_RadioStation]; its url is the entry's
    resolved URL when that is a non-empty string, and the entry's raw url
    otherwise (resolved URL absent or empty); it is absent only when the
    raw url is absent and the resolved URL is absent or empty. *)
Theorem search_result_url env text limit w :
  returned (searchStations env text limit w)
  = List.map to_RadioStation
      (List.filter is_working (answer env w (name_params text limit))) /\
  returned (searchByGenre env text limit w)
  = List.map to_RadioStation
      (List.filter is_working (answer env w (tag_params text limit))) /\
  forall e,
    (forall s, RadioBrowserStation.url_resolved e = Some s -> s <> "" ->
               url (to_RadioStation e) = Some s) /\
    (RadioBrowserStation.url_resolved e = None \/
     RadioBrowserStation.url_resolved e = Some "" ->
     url (to_RadioStation e) = RadioBrowserStation.url e) /\
    (url (to_RadioStation e) = None ->
     RadioBrowserStation.url e = None /\
     (RadioBrowserStation.url_resolved e = None \/
      RadioBrowserStation.url_resolved e = Some "")).
Proof.
  split; [apply returned_searchStations|]. split; [apply returned_searchByGenre|].
  intros e. simpl. unfold or_else, truthy_string.
  destruct (RadioBrowserStation.url_resolved e) as [r|].
  - destruct (String.eqb_spec r "") as [->|Hr]; simpl.
    + split; [intros s [= <-] Hs; contradiction Hs; reflexivity|].
      split; [reflexivity|]. intros Hu. split; [exact Hu | right; reflexivity].
    + split; [intros s [= <-] _; reflexivity|].
      split; [intros [Hn | [= Hs]]; [discriminate Hn | contradiction Hr]|].
      intros Hu. discriminate Hu.
  - simpl. split; [intros s Hs; discriminate Hs|].
    split; [reflexivity|]. intros Hu. split; [exact Hu | left; reflexivity].
Qed.

(** The three cases of the url, on entries that a search returns. *)
Example search_result_url_example :
  List.map url
    (returned (searchStations
                 (directory [entry "A" (Some "http://a.example/r") (Some "http://a.example/") 1;
                             entry "B" (Some "") (Some "http://b.example/") 1;
                             entry "C" None (Some "http://c.example/") 1])
                 "abc" 20 initial))
  = [Some "http://a.example/r"; Some "http://b.example/"; Some "http://c.example/"].
Proof. reflexivity. Qed.

(** * One play after another *)

Section Replace.

Variable env : Env.

Lemma grown_by_refl allowed w : grown_by allowed w w.
Proof. exists []. split; [symmetry; apply app_nil_r | constructor]. Qed.

Lemma grown_by_snoc allowed w0 w e :
  allowed e = true -> grown_by allowed w0 w ->
  grown_by allowed w0 (with_trace (fun t => t ++ [e]) w).
Proof.
  intros He (tr & Htr & Hall). exists (tr ++ [e]). simpl. split.
  - rewrite Htr, app_assoc. reflexivity.
  - apply Forall_app. split; [exact Hall | constructor; [exact He | constructor]].
Qed.

Lemma terminated_snoc w0 p w e :
  terminated w0 p w -> terminated w0 p (with_trace (fun t => t ++ [e]) w).
Proof.
  intros (tr & Htr & Hin). exists (tr ++ [e]). simpl. split.
  - rewrite Htr, app_assoc. reflexivity.
  - apply in_or_app. left. exact Hin.
Qed.

Lemma terminated_now w0 p w :
  grown_by any_effect w0 w ->
  terminated w0 p (with_trace (fun t => t ++ [ProcessKill (- p) SIGTERM]) w).
Proof.
  intros (tr & Htr & _). exists (tr ++ [ProcessKill (- p) SIGTERM]). simpl. split.
  - rewrite Htr, app_assoc. reflexivity.
  - apply in_or_app. right. left. reflexivity.
Qed.

Lemma next_effect_snoc t0 e w x :
  next_effect t0 e w -> next_effect t0 e (with_trace (fun t => t ++ [x]) w).
Proof.
  intros (rest & Hrest). exists (rest ++ [x]). simpl.
  rewrite Hrest, <- app_assoc. reflexivity.
Qed.

Lemma next_effect_now e w :
  next_effect (trace w) e (with_trace (fun t => t ++ [e]) w).
Proof. exists []. reflexivity. Qed.

(** The loop of [kill_tracked], with graceful termination: every
    identifier it runs over is signalled. *)
Lemma kill_tracked_loop w0 ids :
  forall w,
    grown_by any_effect w0 w ->
    wp (for_of ids (fun z =>
          try_catch
            (process_kill env (- z) SIGTERM ;; setTimeout (KillGroup z) 1000)
            (fun _ => ret tt)))
       (fun _ w' => grown_by any_effect w0 w' /\
                    forall p, In p ids -> terminated w0 p w')
       (fun _ => False) w.
Proof.
  induction ids as [|z rest IH]; intros w Hw; simpl.
  - wp_run. split; [exact Hw | intros p []].
  - assert (Hrest : forall w1,
              grown_by any_effect w0 w1 -> terminated w0 z w1 ->
              wp (for_of rest (fun z0 =>
                    try_catch
                      (process_kill env (- z0) SIGTERM ;;
                       setTimeout (KillGroup z0) 1000)
                      (fun _ => ret tt)))
                 (fun _ w' => grown_by any_effect w0 w' /\
                              forall p, In p (z :: rest) -> terminated w0 p w')
                 (fun _ => False) w1).
    { intros w1 Hg Hz.
      assert (Hkeep :
                wp (for_of rest (fun z0 =>
                      try_catch
                        (process_kill env (- z0) SIGTERM ;;
                         setTimeout (KillGroup z0) 1000)
                        (fun _ => ret tt)))
                   (fun _ => terminated w0 z) (fun _ => False) w1).
      { apply wp_for_of; [exact Hz|]. intros x w' _ Hz'.
        wp_run; repeat apply terminated_snoc; exact Hz'. }
      eapply wp_mono; [exact (wp_conj _ _ _ _ _ _ (IH w1 Hg) Hkeep) | | ].
      - intros [] w' [[Hg' Hin] Hz']. split; [exact Hg'|].
        intros p [<- | Hp]; [exact Hz' | apply Hin, Hp].
      - intros w' [[] _]. }
    wp_run.
    + apply Hrest; [apply grown_by_snoc; [reflexivity | exact Hw]|].
      apply terminated_now, Hw.
    + apply Hrest.
      * change (grown_by any_effect w0
                  (with_timers (fun q => q ++ [KillGroup z])
                     (with_trace (fun t => t ++ [SetTimeout 1000])
                        (with_trace (fun t => t ++ [ProcessKill (- z) SIGTERM]) w)))).
        destruct (grown_by_snoc any_effect w0 _ (SetTimeout 1000) eq_refl
                    (grown_by_snoc any_effect w0 w (ProcessKill (- z) SIGTERM)
                       eq_refl Hw)) as (tr & Htr & Hall).
        exists tr. split; [exact Htr | exact Hall].
      * destruct (terminated_snoc w0 z _ (SetTimeout 1000) (terminated_now w0 z w Hw))
          as (tr & Htr & Hin).
        exists tr. split; [exact Htr | exact Hin].
Qed.

Lemma kill_current_frame force w :
  wp (kill_current env force)
     (fun _ w' => this w' = this w /\ grown_by any_effect w w')
     (fun _ => False) w.
Proof.
  apply (stable_kill_current env
           (fun w' => this w' = this w /\ grown_by any_effect w w') any_effect); auto.
  - intros w1 e _ [Hthis Hg]. split; [exact Hthis|].
    apply grown_by_snoc; [reflexivity | exact Hg].
  - split; [reflexivity | apply grown_by_refl].
Qed.

Lemma stop_sends w :
  wp (stop env)
     (fun _ w' => forall p, In p (processIds (this w)) -> terminated w p w')
     (fun _ => False) w.
Proof.
  unfold stop, killAllProcesses. wp_run.
  wp_apply kill_current_frame as w1 H1.
  unfold kill_tracked. wp_run. destruct H1 as [Hthis Hg]. rewrite Hthis.
  eapply wp_mono; [apply (kill_tracked_loop w (processIds (this w)) w1 Hg) | | ].
  - intros [] w2 [_ Hsent]. wp_run. exact Hsent.
  - intros w2 [].
Qed.

(** [stop]: every tracked identifier is sent SIGTERM, nothing but
    signals and timers happens, and the player is cleared. *)
Lemma stop_terminates w :
  wp (stop env)
     (fun _ w' =>
        this w' = new_RadioPlayer /\ heap w' = heap w /\
        exists kills,
          trace w' = trace w ++ kills /\
          Forall (fun e => signal_or_timer e = true) kills /\
          forall p, In p (processIds (this w)) -> In (ProcessKill (- p) SIGTERM) kills)
     (fun _ => False) w.
Proof.
  assert (Hgrown : wp (stop env) (fun _ => grown_by signal_or_timer w)
                      (fun _ => False) w).
  { apply (stable_stop env (grown_by signal_or_timer w) signal_or_timer); auto.
    - intros w1 e He Hg. apply grown_by_snoc; assumption.
    - apply grown_by_refl. }
  eapply wp_mono;
    [exact (wp_conj _ _ _ _ _ _ (stop_clears env w)
              (wp_conj _ _ _ _ _ _ Hgrown (stop_sends w))) | | ].
  - intros [] w' [[Hthis Hheap] [(kills & Hk & Hall) Hsent]].
    split; [exact Hthis|]. split; [exact Hheap|].
    exists kills. split; [exact Hk|]. split; [exact Hall|].
    intros p Hp. destruct (Hsent p Hp) as (tr & Htr & Hin).
    rewrite Hk in Htr. apply app_inv_head in Htr. rewrite Htr. exact Hin.
  - intros w' [[] _].
Qed.

(** ** What [play] tracks afterwards *)

Lemma tracks_from_alter n w f h :
  (forall p, pid (f p) = pid p) ->
  tracks_from n w -> tracks_from n (with_heap (alter_heap f h) w).
Proof.
  intros Hf (Hlen & Hids & Hcur). split; [exact Hlen|]. split; [|exact Hcur].
  intros p Hp. destruct (Hids p Hp) as (i & Hi & Hpid). exists i. split; [exact Hi|].
  rewrite (deref_alter_heap pid f h w i Hf). exact Hpid.
Qed.

(** Right after a launch: the new object is the current process, and its
    identifier, if it has one, is the only one tracked. *)
Lemma tracks_from_launch n w p ids :
  n <= length (heap w) ->
  ids = [] \/ (exists z, p = Some z /\ ids = [z]) ->
  tracks_from n
    (with_this (put_processIds ids)
       (with_this (put_currentProcess (Some (length (heap w))))
          (with_heap (fun hp => hp ++ [new_process p]) w))).
Proof.
  intros Hn Hids. split; [|split].
  - simpl. destruct Hids as [-> | (z & _ & ->)]; simpl; lia.
  - simpl. intros q Hq. destruct Hids as [-> | (z & -> & ->)]; [destruct Hq|].
    destruct Hq as [<- | []]. exists (length (heap w)). split; [exact Hn|].
    unfold deref. simpl. rewrite lookup_app_r by reflexivity.
    rewrite Nat.sub_diag. reflexivity.
  - simpl. intros h [= <-]. exact Hn.
Qed.

Lemma pid_deref_launch w p f :
  pid (deref (with_this f (with_heap (fun hp => hp ++ [new_process p]) w))
         (length (heap w))) = p.
Proof.
  unfold deref. simpl. rewrite lookup_app_r by reflexivity.
  rewrite Nat.sub_diag. reflexivity.
Qed.

Lemma tracks_from_tryVLC n station w :
  n <= length (heap w) ->
  currentProcess (this w) = None -> processIds (this w) = [] ->
  wp (tryVLC env station) (fun _ => tracks_from n) (fun _ => False) w.
Proof.
  intros Hn Hcp Hids. unfold tryVLC. wp_run.
  - split; [|split]; simpl; rewrite ?Hids, ?Hcp; simpl;
      [lia | intros p [] | intros h Hh; discriminate Hh].
  - repeat (apply tracks_from_alter; [intros []; reflexivity|]).
    simpl. rewrite Hids. simpl.
    apply (tracks_from_launch n (with_trace _ w) p [z]); [exact Hn|].
    right. exists z. split; [|reflexivity].
    rewrite <- H. symmetry. apply (pid_deref_launch (with_trace _ w)).
  - repeat (apply tracks_from_alter; [intros []; reflexivity|]).
    split; [|split]; simpl; rewrite ?Hids; simpl;
      [lia | intros q [] | intros h [= <-]; exact Hn].
Qed.

(** The first thing that [play_try] does is to launch mpv. *)
Lemma play_try_launches station w :
  wp (play_try env station)
     (fun _ => next_effect (trace w) (Spawn "mpv" (mpv_args station)))
     (fun _ => False) w.
Proof.
  unfold play_try. wp_run.
  - apply (stable_tryVLC env
             (next_effect (trace w) (Spawn "mpv" (mpv_args station))) any_effect);
      auto.
    + intros w1 x _ H1. apply next_effect_snoc, H1.
    + apply next_effect_snoc, next_effect_now.
  - apply next_effect_snoc, next_effect_now.
  - apply next_effect_snoc, next_effect_now.
Qed.

Lemma play_try_tracks n station w :
  n <= length (heap w) ->
  currentProcess (this w) = None -> processIds (this w) = [] ->
  wp (play_try env station) (fun _ => tracks_from n) (fun _ => False) w.
Proof.
  intros Hn Hcp Hids. unfold play_try. wp_run.
  - apply tracks_from_tryVLC; assumption.
  - repeat (apply tracks_from_alter; [intros []; reflexivity|]).
    simpl. rewrite Hids. simpl.
    apply (tracks_from_launch n (with_trace _ w) p [z]); [exact Hn|].
    right. exists z. split; [|reflexivity].
    rewrite <- H. symmetry. apply (pid_deref_launch (with_trace _ w)).
  - repeat (apply tracks_from_alter; [intros []; reflexivity|]).
    split; [|split]; simpl; rewrite ?Hids; simpl;
      [lia | intros q [] | intros h [= <-]; exact Hn].
Qed.

(** [play]: the old processes are signalled first, then mpv is
    launched. *)
Lemma play_begin_terminates_first station w :
  wp (play_begin env station)
     (fun _ w' =>
        exists kills rest,
          trace w' = trace w ++ kills ++ Spawn "mpv" (mpv_args station) :: rest /\
          Forall (fun e => signal_or_timer e = true) kills /\
          forall p, In p (processIds (this w)) ->
                    In (ProcessKill (- p) SIGTERM) kills)
     (fun _ => False) w.
Proof.
  unfold play_begin. wp_run. wp_apply stop_terminates as w1 H1.
  destruct H1 as (Hthis & Hheap & kills & Hk & Hall & Hsent).
  wp_run. wp_apply play_try_launches as w2 H2.
  destruct H2 as (rest & Hrest). simpl in Hrest.
  exists kills, rest. split; [|split; assumption].
  rewrite Hrest, Hk, <- app_assoc. reflexivity.
Qed.

(** Afterwards only what this call has launched is tracked. *)
Lemma play_begin_tracks station w :
  wp (play_begin env station)
     (fun _ => tracks_from (length (heap w))) (fun _ => False) w.
Proof.
  unfold play_begin. wp_run. wp_apply stop_clears as w1 H1.
  destruct H1 as [Hthis Hheap]. wp_run.
  apply play_try_tracks; simpl; rewrite ?Hheap, ?Hthis; reflexivity.
Qed.

End Replace.

(** The deferred forced kill of the current process reads
    [this.currentProcess] when it fires (line 171): set by the [stop]
    inside the second [play], it finds the process of the second [play]. *)
Example deferred_kill_example :
  let w1 := snd (play healthy test_fm [] initial) in
  let w2 := snd (play_begin healthy test_fm w1) in
  timers w2 = [KillCurrentGroup; KillGroup 1000; PlayResume test_fm] /\
  trace (snd (fire_timer healthy w2)) = trace w2 ++ [ProcessKill (-1001) SIGKILL].
Proof. repeat split. Qed.

(** What the synchronous part of [play] does about the previous
    station, from any world [w1].  It returns normally.  Before it
    launches anything it sends SIGTERM to the process group of every
    identifier that was tracked, and does nothing else than signalling and
    setting the timers of the forced kills.  After it the current station
    is the new one, at most one identifier is tracked, and every tracked
    identifier, like the current process, belongs to an object that this
    call has created: when the operating system gives the new process an
    identifier that the old processes did not have, no old identifier is
    tracked any more. *)
Lemma play_begin_replaces_previous env stationB w1 :
  let w2 := snd (play_begin env stationB w1) in
  fst (play_begin env stationB w1) = Normal tt /\
  getCurrentStation w2 = Some stationB /\
  (exists kills rest,
     trace w2 = trace w1 ++ kills ++ Spawn "mpv" (mpv_args stationB) :: rest /\
     Forall (fun e => signal_or_timer e = true) kills /\
     forall p, In p (processIds (this w1)) -> In (ProcessKill (- p) SIGTERM) kills) /\
  length (processIds (this w2)) <= 1 /\
  (forall p, In p (processIds (this w2)) ->
             exists h, length (heap w1) <= h /\ pid (deref w2 h) = Some p) /\
  (forall h, currentProcess (this w2) = Some h -> length (heap w1) <= h) /\
  ((forall h p, length (heap w1) <= h -> pid (deref w2 h) = Some p ->
                ~ In p (processIds (this w1))) ->
   forall p, In p (processIds (this w1)) -> ~ In p (processIds (this w2))).
Proof.
  intros w2.
  pose proof (wp_total_elim _ _ _ (play_begin_station env stationB w1)) as [Hc Hs].
  pose proof (wp_total_elim _ _ _ (play_begin_terminates_first env stationB w1))
    as [_ Ht].
  pose proof (wp_total_elim _ _ _ (play_begin_tracks env stationB w1))
    as [_ (Hlen & Hids & Hcur)].
  fold w2 in Hs, Ht, Hlen, Hids, Hcur.
  split; [exact Hc|]. split; [exact Hs|]. split; [exact Ht|].
  split; [exact Hlen|]. split; [exact Hids|]. split; [exact Hcur|].
  intros Hfresh p Hp1 Hp2. destruct (Hids p Hp2) as (h & Hh & Hpid).
  exact (Hfresh h p Hh Hpid Hp1).
Qed.

(** C4: a [play] of station A and then a [play] of station B, with no
    [stop] in between, on a machine that has vlc but not mpv.  Both calls
    launch mpv and get an object without a pid; the second call finds no
    identifier to signal.  Then Node reports on each object that the
    binary was not found.  The listener of the first object is still
    attached (lines 35-42): it launches vlc for station A, makes that the
    current process and tracks its identifier 2002.  The listener of the
    second object launches vlc for station B and tracks 2003.  The
    current station is B, but the identifier of A's process is tracked,
    no signal has been sent to it, and two processes are active.  When
    the timers have fired and both calls have returned this is still so,
    and the only signal sent is the deferred forced kill of "the current
    process", which hits the group of B's process. *)
Theorem play_after_play_keeps_previous_fallback :
  let r := exec vlc_only
             [CallPlay test_fm; CallPlay jazz_fm;
              EmitError 0 (ENOENT "mpv"); EmitError 1 (ENOENT "mpv")] initial in
  let r' := drain vlc_only (snd r) in
  fst r = Normal tt /\
  getCurrentStation (snd r) = Some jazz_fm /\
  trace (snd r)
  = [Spawn "mpv" (mpv_args test_fm); SetTimeout 1000;
     SetTimeout 1000;
     Spawn "mpv" (mpv_args jazz_fm); SetTimeout 1000;
     Spawn "vlc" (vlc_args test_fm);
     Spawn "vlc" (vlc_args jazz_fm)] /\
  List.map pid (heap (snd r)) = [None; None; Some 2002%Z; Some 2003%Z] /\
  processIds (this (snd r)) = [2002%Z; 2003%Z] /\
  currentProcess (this (snd r)) = Some 3 /\
  timers (snd r) = [PlayResume test_fm; KillCurrentGroup; PlayResume jazz_fm] /\
  fst r' = Normal tt /\
  trace (snd r')
  = trace (snd r) ++
    [ConsoleLog ["✅ Now playing!"]; ProcessKill (-2003) SIGKILL;
     ConsoleLog ["✅ Now playing!"]] /\
  this (snd r') = this (snd r) /\
  timers (snd r') = [].
Proof. repeat split. Qed.

(** Two plays in a row, mpv starting each time: the identifier 1000 of
    the first process is signalled and dropped, 1001 is tracked. *)
Example play_twice_example :
  let w1 := snd (play healthy test_fm [] initial) in
  let w2 := snd (play_begin healthy test_fm w1) in
  processIds (this w1) = [1000%Z] /\
  processIds (this w2) = [1001%Z] /\
  currentProcess (this w2) = Some 1 /\
  trace w2
  = trace w1 ++
    [ProcessKill (-1000) SIGTERM; SetTimeout 1000;
     ProcessKill (-1000) SIGTERM; SetTimeout 1000;
     Spawn "mpv" (mpv_args test_fm); SetTimeout 1000].
Proof. repeat split. Qed.

(** * Further properties of the class *)

(** Conditionals on a constant, as they arise when [force] is fixed. *)
Ltac wp_const :=
  lazymatch goal with
  | |- wp (if true then ?a else _) ?Q ?E ?w => change (wp a Q E w)
  | |- wp (if false then _ else ?b) ?Q ?E ?w => change (wp b Q E w)
  end.

Ltac wp_exec := repeat first [wp_const | wp_step].

(** A loop whose every turn establishes [S x] for its element, and keeps
    what earlier turns have established. *)
Lemma wp_for_of_each {A} (xs : list A) (body : A -> Js unit)
  (G : World -> Prop) (S : A -> World -> Prop) :
  (forall x w, G w -> wp (body x) (fun _ w' => G w' /\ S x w') (fun _ => False) w) ->
  (forall x y w, S y w -> wp (body x) (fun _ => S y) (fun _ => False) w) ->
  forall w, G w ->
    wp (for_of xs body) (fun _ w' => G w' /\ forall x, In x xs -> S x w')
       (fun _ => False) w.
Proof.
  intros Hbody Hkeep. induction xs as [|x xs IH]; intros w Hg; simpl.
  - split; [exact Hg | intros y []].
  - apply wp_bind. eapply wp_mono; [apply (Hbody x w Hg) | | intros w' []].
    intros [] w1 [Hg1 Hx].
    assert (Hx' : wp (for_of xs body) (fun _ => S x) (fun _ => False) w1).
    { apply wp_for_of; [exact Hx|]. intros y w2 _ Hx2. apply Hkeep, Hx2. }
    eapply wp_mono; [exact (wp_conj _ _ _ _ _ _ (IH w1 Hg1) Hx') | | ].
    + intros [] w2 [[Hg2 Hall] Hx2]. split; [exact Hg2|].
      intros y [<- | Hy]; [exact Hx2 | apply Hall, Hy].
    + intros w2 [[] _].
Qed.

(** ** forceStop: what it signals *)

Lemma signalled_snoc sig w0 z w e :
  signalled sig w0 z w -> signalled sig w0 z (with_trace (fun t => t ++ [e]) w).
Proof.
  intros (tr & Htr & Hin). exists (tr ++ [e]). simpl. split.
  - rewrite Htr, app_assoc. reflexivity.
  - apply in_or_app. left. exact Hin.
Qed.

Lemma signalled_now sig w0 z w :
  grown_by any_effect w0 w ->
  signalled sig w0 z (with_trace (fun t => t ++ [ProcessKill z sig]) w).
Proof.
  intros (tr & Htr & _). exists (tr ++ [ProcessKill z sig]). simpl. split.
  - rewrite Htr, app_assoc. reflexivity.
  - apply in_or_app. right. left. reflexivity.
Qed.

Lemma grown_by_weaken (a b : Effect -> bool) w0 w :
  (forall e, a e = true -> b e = true) -> grown_by a w0 w -> grown_by b w0 w.
Proof.
  intros Hab (tr & Htr & Hall). exists tr. split; [exact Htr|].
  eapply Forall_impl; [exact Hall | exact Hab].
Qed.

Lemma grown_by_trans a w0 w1 w2 :
  grown_by a w0 w1 -> grown_by a w1 w2 -> grown_by a w0 w2.
Proof.
  intros (t1 & H1 & A1) (t2 & H2 & A2). exists (t1 ++ t2). split.
  - rewrite H2, H1, app_assoc. reflexivity.
  - apply Forall_app. split; assumption.
Qed.

Lemma signalled_trans sig w0 w1 w2 z :
  grown_by any_effect w0 w1 -> signalled sig w1 z w2 -> signalled sig w0 z w2.
Proof.
  intros (t1 & H1 & _) (t2 & H2 & Hin). exists (t1 ++ t2). split.
  - rewrite H2, H1, app_assoc. reflexivity.
  - apply in_or_app. right. exact Hin.
Qed.

Lemma signalled_grow sig w0 w1 w2 z :
  signalled sig w0 z w1 -> grown_by any_effect w1 w2 -> signalled sig w0 z w2.
Proof.
  intros (t1 & H1 & Hin) (t2 & H2 & _). exists (t1 ++ t2). split.
  - rewrite H2, H1, app_assoc. reflexivity.
  - apply in_or_app. left. exact Hin.
Qed.

Lemma forced_frame_refl w : forced_frame w w.
Proof. repeat split. apply grown_by_refl. Qed.

Lemma forced_frame_snoc w0 w e :
  forced_kill_or_pgrep e = true -> forced_frame w0 w ->
  forced_frame w0 (with_trace (fun t => t ++ [e]) w).
Proof.
  intros He (H1 & H2 & H3 & H4). repeat split; try assumption.
  apply grown_by_snoc; assumption.
Qed.

Lemma forced_frame_grown w0 w : forced_frame w0 w -> grown_by any_effect w0 w.
Proof.
  intros (_ & _ & _ & Hg). eapply grown_by_weaken; [|exact Hg]. reflexivity.
Qed.

Lemma kill_current_forced env w :
  wp (kill_current env true)
     (fun _ w' =>
        forced_frame w w' /\
        forall h z, currentProcess (this w) = Some h ->
                    killed (deref w h) = false ->
                    pid (deref w h) = Some z -> z <> 0%Z ->
                    signalled SIGKILL w (- z) w')
     (fun _ => False) w.
Proof.
  unfold kill_current. wp_exec.
  - split; [apply forced_frame_snoc; [reflexivity | apply forced_frame_refl]|].
    intros h z' [= <-] _ Hpid _. rewrite H0 in Hpid. injection Hpid as <-.
    apply signalled_now, grown_by_refl.
  - split; [apply forced_frame_snoc; [reflexivity | apply forced_frame_refl]|].
    intros h z' [= <-] _ Hpid _. rewrite H0 in Hpid. injection Hpid as <-.
    apply signalled_now, grown_by_refl.
  - split; [apply forced_frame_refl|].
    intros h z [= <-] _ Hpid Hz. rewrite Hpid in H0. simpl in H0.
    apply Z.eqb_neq in Hz. rewrite Hz in H0. discriminate H0.
  - split; [apply forced_frame_refl|].
    intros h z [= <-] Hk _ _. rewrite Hk in H. discriminate H.
  - split; [apply forced_frame_refl|].
    intros h z Hcp. discriminate Hcp.
Qed.

Lemma kill_tracked_forced env w :
  wp (kill_tracked env true)
     (fun _ w' =>
        forced_frame w w' /\
        forall p, In p (processIds (this w)) -> signalled SIGKILL w (- p) w')
     (fun _ => False) w.
Proof.
  unfold kill_tracked. wp_run.
  apply (wp_for_of_each (processIds (this w)) _ (forced_frame w)
           (fun p => signalled SIGKILL w (- p))).
  - intros z w1 H1.
    wp_exec; (split; [apply forced_frame_snoc; [reflexivity | exact H1]|]);
      apply signalled_now, forced_frame_grown, H1.
  - intros z y w1 Hy. wp_exec; apply signalled_snoc, Hy.
  - apply forced_frame_refl.
Qed.

Lemma forced_frame_trans w0 w1 w2 :
  forced_frame w0 w1 -> forced_frame w1 w2 -> forced_frame w0 w2.
Proof.
  intros (A1 & A2 & A3 & A4) (B1 & B2 & B3 & B4). repeat split.
  - rewrite B1. exact A1.
  - rewrite B2. exact A2.
  - rewrite B3. exact A3.
  - eapply grown_by_trans; eassumption.
Qed.

Lemma sweep_forced env binary w0 w :
  forced_frame w0 w ->
  wp (sweep env binary) (fun _ => forced_frame w0) (fun _ => False) w.
Proof.
  intros H. unfold sweep. wp_run.
  - apply forced_frame_snoc; [reflexivity | exact H].
  - apply wp_for_of; [apply forced_frame_snoc; [reflexivity | exact H]|].
    intros line w1 _ H1. unfold kill_parsed. wp_run; try exact H1.
    + apply forced_frame_snoc; [reflexivity | exact H1].
    + apply forced_frame_snoc; [reflexivity | exact H1].
Qed.

Lemma killOrphanedProcesses_forced env w :
  wp (killOrphanedProcesses env) (fun _ => forced_frame w) (fun _ => False) w.
Proof.
  unfold killOrphanedProcesses. wp_run.
  wp_apply (sweep_forced env "mpv" w w (forced_frame_refl w)) as w1 H1.
  wp_apply (sweep_forced env "vlc" w w1 H1) as w2 H2. exact H2.
Qed.

(** What [killAllProcesses(true)] signals. *)
Lemma killAllProcesses_forced env w :
  wp (killAllProcesses env true)
     (fun _ w' =>
        heap w' = heap w /\ timers w' = timers w /\
        this w' = put_processIds [] (this w) /\
        grown_by forced_kill_or_pgrep w w' /\
        (forall p, In p (processIds (this w)) -> signalled SIGKILL w (- p) w') /\
        (forall h z, currentProcess (this w) = Some h ->
                     killed (deref w h) = false ->
                     pid (deref w h) = Some z -> z <> 0%Z ->
                     signalled SIGKILL w (- z) w'))
     (fun _ => False) w.
Proof.
  unfold killAllProcesses. wp_run.
  wp_apply kill_current_forced as w1 H1. destruct H1 as [Hf1 Hcur]. wp_run.
  wp_apply kill_tracked_forced as w2 H2. destruct H2 as [Hf2 Hids]. wp_run.
  pose proof (forced_frame_trans w w1 w2 Hf1 Hf2) as (A1 & A2 & A3 & A4).
  simpl. split; [exact A2|]. split; [exact A3|]. split; [rewrite A1; reflexivity|].
  split; [exact A4|]. split.
  - intros p Hp. pose proof Hf1 as (Hthis1 & _). rewrite <- Hthis1 in Hp.
    exact (signalled_trans SIGKILL w w1 w2 (- p)
             (forced_frame_grown w w1 Hf1) (Hids p Hp)).
  - intros h z Hcp Hk Hpid Hz.
    exact (signalled_grow SIGKILL w w1 w2 (- z)
             (Hcur h z Hcp Hk Hpid Hz) (forced_frame_grown w1 w2 Hf2)).
Qed.

(** X1: [forceStop] sends SIGKILL to the process group of every tracked
    identifier, and to the group of the current process when that has an
    identifier, whatever the outcome of each signal.  Besides SIGKILLs it
    only runs [pgrep]: it launches nothing, prints nothing and sets no
    timer. *)
Theorem forceStop_kills_every_tracked env w :
  timers (snd (forceStop env w)) = timers w /\
  heap (snd (forceStop env w)) = heap w /\
  exists tr,
    trace (snd (forceStop env w)) = trace w ++ tr /\
    Forall (fun e => forced_kill_or_pgrep e = true) tr /\
    (forall p, In p (processIds (this w)) -> In (ProcessKill (- p) SIGKILL) tr) /\
    (forall h z, currentProcess (this w) = Some h ->
                 killed (deref w h) = false ->
                 pid (deref w h) = Some z -> z <> 0%Z ->
                 In (ProcessKill (- z) SIGKILL) tr).
Proof.
  assert (H : wp (forceStop env)
                 (fun _ w' =>
                    timers w' = timers w /\ heap w' = heap w /\
                    grown_by forced_kill_or_pgrep w w' /\
                    (forall p, In p (processIds (this w)) ->
                               signalled SIGKILL w (- p) w') /\
                    (forall h z, currentProcess (this w) = Some h ->
                                 killed (deref w h) = false ->
                                 pid (deref w h) = Some z -> z <> 0%Z ->
                                 signalled SIGKILL w (- z) w'))
                 (fun _ => False) w).
  { unfold forceStop. wp_run.
    wp_apply killAllProcesses_forced as w1 H1.
    destruct H1 as (A1 & A2 & A3 & A4 & Hids & Hcur). wp_run.
    wp_apply killOrphanedProcesses_forced as w2 H2. wp_run.
    destruct H2 as (B1 & B2 & B3 & B4). simpl.
    assert (Hg : grown_by any_effect w1 w2)
      by (eapply grown_by_weaken; [|exact B4]; reflexivity).
    split; [rewrite B3; exact A2|]. split; [rewrite B2; exact A1|].
    split; [eapply grown_by_trans; eassumption|]. split.
    - intros p Hp. exact (signalled_grow SIGKILL w w1 w2 (- p) (Hids p Hp) Hg).
    - intros h z Hcp Hk Hpid Hz.
      exact (signalled_grow SIGKILL w w1 w2 (- z) (Hcur h z Hcp Hk Hpid Hz) Hg). }
  apply wp_total_elim in H. destruct H as (_ & Ht & Hh & (tr & Htr & Hall) & Hids & Hcur).
  split; [exact Ht|]. split; [exact Hh|]. exists tr.
  split; [exact Htr|]. split; [exact Hall|]. split.
  - intros p Hp. destruct (Hids p Hp) as (tr' & Htr' & Hin).
    rewrite Htr in Htr'. apply app_inv_head in Htr'. rewrite Htr'. exact Hin.
  - intros h z Hcp Hk Hpid Hz. destruct (Hcur h z Hcp Hk Hpid Hz) as (tr' & Htr' & Hin).
    rewrite Htr in Htr'. apply app_inv_head in Htr'. rewrite Htr'. exact Hin.
Qed.

(** ** stop: what it signals and what it leaves *)

(** X2: from any world [stop] returns normally, sends SIGTERM to the
    process group of every tracked identifier, does nothing but signal
    and set timers (it launches nothing and prints nothing), and leaves
    no station, no current process and no tracked identifier. *)
Theorem stop_signals_and_clears env w :
  fst (stop env w) = Normal tt /\
  this (snd (stop env w)) = new_RadioPlayer /\
  getCurrentStation (snd (stop env w)) = None /\
  isPlaying (snd (stop env w)) = false /\
  heap (snd (stop env w)) = heap w /\
  exists kills,
    trace (snd (stop env w)) = trace w ++ kills /\
    Forall (fun e => signal_or_timer e = true) kills /\
    forall p, In p (processIds (this w)) -> In (ProcessKill (- p) SIGTERM) kills.
Proof.
  pose proof (wp_total_elim _ _ _ (stop_terminates env w)) as (Hc & Hthis & Hheap & Hk).
  split; [exact Hc|]. split; [exact Hthis|].
  split; [unfold getCurrentStation; rewrite Hthis; reflexivity|].
  split; [unfold isPlaying; rewrite Hthis; reflexivity|].
  split; [exact Hheap | exact Hk].
Qed.

(** ** The timers *)

Lemma timer_frame_refl w : timer_frame w w.
Proof. repeat split. apply grown_by_refl. Qed.

Lemma timer_frame_snoc w0 w e :
  timer_effect e = true -> timer_frame w0 w ->
  timer_frame w0 (with_trace (fun t => t ++ [e]) w).
Proof.
  intros He (H1 & H2 & H3 & H4). repeat split; try assumption.
  apply grown_by_snoc; assumption.
Qed.

Lemma timer_frame_grown w0 w : timer_frame w0 w -> grown_by any_effect w0 w.
Proof.
  intros (_ & _ & _ & Hg). eapply grown_by_weaken; [|exact Hg]. reflexivity.
Qed.

(** What each callback does when it runs. *)
Lemma run_timer_spec env t w :
  wp (run_timer env t)
     (fun _ w' =>
        timer_frame w w' /\
        (forall z, t = KillGroup z -> signalled SIGKILL w (- z) w') /\
        (forall h z, t = KillCurrentGroup ->
                     currentProcess (this w) = Some h ->
                     killed (deref w h) = false ->
                     pid (deref w h) = Some z -> z <> 0%Z ->
                     signalled SIGKILL w (- z) w'))
     (fun _ => False) w.
Proof.
  destruct t as [station| |z]; unfold run_timer.
  - unfold play_resume. wp_run.
    + split; [apply timer_frame_snoc; [reflexivity | apply timer_frame_refl]|].
      split; [intros z Hz; discriminate Hz | intros h z Hz; discriminate Hz].
    + split; [apply timer_frame_refl|].
      split; [intros z Hz; discriminate Hz | intros h z Hz; discriminate Hz].
    + split; [apply timer_frame_refl|].
      split; [intros z Hz; discriminate Hz | intros h z Hz; discriminate Hz].
  - wp_run.
    + split; [apply timer_frame_snoc; [reflexivity | apply timer_frame_refl]|].
      split; [intros z' Hz; discriminate Hz|].
      intros h z' _ [= <-] _ Hpid _. rewrite H0 in Hpid. injection Hpid as <-.
      apply signalled_now, grown_by_refl.
    + split; [apply timer_frame_snoc; [reflexivity | apply timer_frame_refl]|].
      split; [intros z' Hz; discriminate Hz|].
      intros h z' _ [= <-] _ Hpid _. rewrite H0 in Hpid. injection Hpid as <-.
      apply signalled_now, grown_by_refl.
    + split; [apply timer_frame_refl|].
      split; [intros z' Hz; discriminate Hz|].
      intros h z _ [= <-] _ Hpid Hz. rewrite Hpid in H0. simpl in H0.
      apply Z.eqb_neq in Hz. rewrite Hz in H0. discriminate H0.
    + split; [apply timer_frame_refl|].
      split; [intros z' Hz; discriminate Hz|].
      intros h z _ [= <-] Hk _ _. rewrite Hk in H. discriminate H.
    + split; [apply timer_frame_refl|].
      split; [intros z' Hz; discriminate Hz|].
      intros h z _ Hcp. discriminate Hcp.
  - wp_run.
    + split; [apply timer_frame_snoc; [reflexivity | apply timer_frame_refl]|].
      split; [|intros h z' Hz; discriminate Hz].
      intros z' [= <-]. apply signalled_now, grown_by_refl.
    + split; [apply timer_frame_snoc; [reflexivity | apply timer_frame_refl]|].
      split; [|intros h z' Hz; discriminate Hz].
      intros z' [= <-]. apply signalled_now, grown_by_refl.
Qed.

Lemma fire_timer_spec env w :
  wp (fire_timer env)
     (fun _ w' =>
        this w' = this w /\ heap w' = heap w /\ timers w' = tail (timers w) /\
        grown_by timer_effect w w' /\
        (forall z, head (timers w) = Some (KillGroup z) ->
                   signalled SIGKILL w (- z) w') /\
        (forall h z, head (timers w) = Some KillCurrentGroup ->
                     currentProcess (this w) = Some h ->
                     killed (deref w h) = false ->
                     pid (deref w h) = Some z -> z <> 0%Z ->
                     signalled SIGKILL w (- z) w'))
     (fun _ => False) w.
Proof.
  unfold fire_timer. wp_run. destruct (timers w) as [|t q] eqn:Hq; wp_run.
  - repeat split; try reflexivity; try apply grown_by_refl.
    + rewrite Hq. reflexivity.
    + intros z Hz. discriminate Hz.
    + intros h z Hz. discriminate Hz.
  - wp_apply run_timer_spec as w1 H1.
    destruct H1 as ((A1 & A2 & A3 & A4) & Hgroup & Hcur). simpl in A1, A2, A3.
    split; [exact A1|]. split; [exact A2|].
    split; [rewrite A3, Hq; reflexivity|]. split; [exact A4|]. split.
    + intros z [= ->]. exact (Hgroup z eq_refl).
    + intros h z [= ->] Hcp Hk Hpid Hz. exact (Hcur h z eq_refl Hcp Hk Hpid Hz).
Qed.

(** X3: a timer that fires never throws and never touches the player:
    the current process, the station, the tracked identifiers and the
    heap are as before; exactly the oldest timer leaves the queue and no
    timer is added; the only effects are SIGKILLs and the message of the
    continuation of [play]. *)
Theorem timers_keep_the_player env w :
  fst (fire_timer env w) = Normal tt /\
  this (snd (fire_timer env w)) = this w /\
  heap (snd (fire_timer env w)) = heap w /\
  timers (snd (fire_timer env w)) = tail (timers w) /\
  exists tr,
    trace (snd (fire_timer env w)) = trace w ++ tr /\
    Forall (fun e => timer_effect e = true) tr.
Proof.
  pose proof (wp_total_elim _ _ _ (fire_timer_spec env w))
    as (Hc & A1 & A2 & A3 & A4 & _).
  repeat split; assumption.
Qed.

(** When every pending timer has fired, every deferred kill of a tracked
    identifier has been sent. *)
Lemma drain_spec env ts :
  forall w, timers w = ts ->
    wp (exec env (repeat FireTimer (length ts)))
       (fun _ w' =>
          timers w' = [] /\ this w' = this w /\ heap w' = heap w /\
          grown_by timer_effect w w' /\
          forall z, In (KillGroup z) ts -> signalled SIGKILL w (- z) w')
       (fun _ => False) w.
Proof.
  induction ts as [|t q IH]; intros w Hw; unfold exec; simpl.
  - repeat split; try assumption; try apply grown_by_refl. intros z [].
  - apply wp_bind. wp_apply fire_timer_spec as w1 H1.
    destruct H1 as (A1 & A2 & A3 & A4 & Hgroup & _).
    rewrite Hw in A3, Hgroup. simpl in A3, Hgroup.
    eapply wp_mono; [apply (IH w1 A3) | | intros w2 []].
    intros [] w2 (B1 & B2 & B3 & B4 & Hq).
    assert (G1 : grown_by any_effect w w1)
      by (eapply grown_by_weaken; [|exact A4]; reflexivity).
    assert (G2 : grown_by any_effect w1 w2)
      by (eapply grown_by_weaken; [|exact B4]; reflexivity).
    split; [exact B1|]. split; [rewrite B2; exact A1|].
    split; [rewrite B3; exact A2|].
    split; [eapply grown_by_trans; eassumption|].
    intros z [-> | Hz].
    + eapply signalled_grow; [apply Hgroup; reflexivity | exact G2].
    + eapply signalled_trans; [exact G1 | apply Hq, Hz].
Qed.

(** ** The graceful stop and its forced kill *)

Lemma wp_process_kill_cases env target sig Q E w :
  (forall e, kill_result env (trace w) target sig = Some e ->
             E (with_trace (fun t => t ++ [ProcessKill target sig]) w)) ->
  (kill_result env (trace w) target sig = None ->
   Q tt (with_trace (fun t => t ++ [ProcessKill target sig]) w)) ->
  wp (process_kill env target sig) Q E w.
Proof.
  intros He Hq. unfold wp, process_kill. simpl.
  destruct (kill_result env (trace w) target sig) as [e|]; [apply (He e) | apply Hq];
    reflexivity.
Qed.

(** A group whose SIGTERM is delivered gets its deferred forced kill. *)
Lemma kill_tracked_schedules env p w :
  (forall t, kill_result env t (- p) SIGTERM = None) ->
  wp (kill_tracked env false)
     (fun _ w' => In p (processIds (this w)) -> In (KillGroup p) (timers w'))
     (fun _ => False) w.
Proof.
  intros Hp. unfold kill_tracked. wp_run.
  eapply wp_mono;
    [apply (wp_for_of_each (processIds (this w)) _ (fun _ => True)
              (fun z w' => z = p -> In (KillGroup p) (timers w')))
    | | intros w' []].
  - intros z w1 _. cbv beta. apply wp_try_catch. try wp_const. apply wp_bind.
    apply wp_process_kill_cases.
    + intros e He e'. wp_run. split; [exact Logic.I|]. intros ->.
      rewrite Hp in He. discriminate He.
    + intros _. wp_run. split; [exact Logic.I|]. intros ->. simpl.
      apply in_or_app. right. left. reflexivity.
  - intros z y w1 Hy. wp_exec; try exact Hy.
    intros Hyp. simpl. apply in_or_app. left. apply Hy, Hyp.
  - exact Logic.I.
  - intros [] w1 [_ Hall] Hin. apply (Hall p Hin eq_refl).
Qed.

Lemma stop_schedules env p w :
  (forall t, kill_result env t (- p) SIGTERM = None) ->
  In p (processIds (this w)) ->
  In (KillGroup p) (timers (snd (stop env w))).
Proof.
  intros Hp Hin.
  apply (wp_total_elim _ (fun _ w' => In (KillGroup p) (timers w'))).
  unfold stop, killAllProcesses. wp_run.
  wp_apply kill_current_frame as w1 H1. destruct H1 as [Hthis _]. wp_run.
  wp_apply (kill_tracked_schedules env p w1 Hp) as w2 H2. wp_run. simpl.
  apply H2. rewrite Hthis. exact Hin.
Qed.

(** X4: the graceful path.  When SIGTERM to the group of a tracked
    identifier is delivered, [stop] leaves a timer for it, and once the
    pending timers have fired (none of them throws, none is left) the
    group has been sent SIGKILL. *)
Theorem graceful_then_forced env w p :
  In p (processIds (this w)) ->
  (forall t, kill_result env t (- p) SIGTERM = None) ->
  In (KillGroup p) (timers (snd (stop env w))) /\
  fst (drain env (snd (stop env w))) = Normal tt /\
  timers (snd (drain env (snd (stop env w)))) = [] /\
  exists tr,
    trace (snd (drain env (snd (stop env w)))) = trace (snd (stop env w)) ++ tr /\
    In (ProcessKill (- p) SIGKILL) tr.
Proof.
  intros Hin Hp. pose proof (stop_schedules env p w Hp Hin) as Hs.
  split; [exact Hs|].
  pose proof (wp_total_elim _ _ _
                (drain_spec env (timers (snd (stop env w))) (snd (stop env w)) eq_refl))
    as (Hc & Ht & _ & _ & _ & Hk).
  split; [exact Hc|]. split; [exact Ht|]. exact (Hk p Hs).
Qed.

Lemma graceful_then_forced_witness :
  let w := snd (play healthy test_fm [] initial) in
  In 1000%Z (processIds (this w)) /\
  In (KillGroup 1000) (timers (snd (stop healthy w))) /\
  fst (drain healthy (snd (stop healthy w))) = Normal tt /\
  timers (snd (drain healthy (snd (stop healthy w)))) = [] /\
  exists tr,
    trace (snd (drain healthy (snd (stop healthy w))))
    = trace (snd (stop healthy w)) ++ tr /\
    In (ProcessKill (- 1000) SIGKILL) tr.
Proof.
  split; [left; reflexivity|].
  apply (graceful_then_forced healthy (snd (play healthy test_fm [] initial)) 1000%Z).
  - left. reflexivity.
  - reflexivity.
Defined.

(** ** The deferred kill of the current process *)

Lemma wp_spawn_cases env cmd args Q E w :
  (forall e, spawn_result env (trace w) cmd args = SpawnThrows e ->
             E (with_trace (fun t => t ++ [Spawn cmd args]) w)) ->
  (forall p, spawn_result env (trace w) cmd args = Spawned p ->
             Q (length (heap w))
               (with_heap (fun hp => hp ++ [new_process p])
                  (with_trace (fun t => t ++ [Spawn cmd args]) w))) ->
  wp (spawn env cmd args) Q E w.
Proof.
  intros He Hq. unfold wp, spawn. simpl.
  destruct (spawn_result env (trace w) cmd args) as [e|p];
    [apply (He e) | apply (Hq p)]; reflexivity.
Qed.

(** A current process with an identifier whose SIGTERM is delivered:
    [kill_current] signals it and sets the timer of its forced kill. *)
Lemma kill_current_graceful env w h a :
  currentProcess (this w) = Some h ->
  killed (deref w h) = false ->
  pid (deref w h) = Some a -> a <> 0%Z ->
  kill_result env (trace w) (- a) SIGTERM = None ->
  kill_current env false w
  = (Normal tt,
     with_timers (fun q => q ++ [KillCurrentGroup])
       (with_trace (fun t => t ++ [SetTimeout 1000])
          (with_trace (fun t => t ++ [ProcessKill (- a) SIGTERM]) w))).
Proof.
  intros Hcp Hk Hpid Ha Hkill.
  unfold kill_current, bind, gets. rewrite Hcp. cbv beta iota. rewrite Hk. simpl.
  unfold try_catch, if_pid, bind. rewrite Hpid.
  destruct (Z.eqb_spec a 0) as [E|_]; [contradiction|].
  unfold process_kill. rewrite Hkill. reflexivity.
Qed.

(** The timer at the head of the queue stays there while others are set. *)
Lemma kill_tracked_keeps_head env t w :
  head (timers w) = Some t ->
  wp (kill_tracked env false)
     (fun _ w' => head (timers w') = Some t) (fun _ => False) w.
Proof.
  intros H. unfold kill_tracked. wp_run.
  apply wp_for_of; [exact H|]. intros z w1 _ H1. wp_exec; try exact H1.
  simpl. destruct (timers w1); [discriminate H1 | exact H1].
Qed.

Lemma stop_first_timer env w h a :
  timers w = [] ->
  currentProcess (this w) = Some h ->
  killed (deref w h) = false ->
  pid (deref w h) = Some a -> a <> 0%Z ->
  kill_result env (trace w) (- a) SIGTERM = None ->
  head (timers (snd (stop env w))) = Some KillCurrentGroup.
Proof.
  intros Ht Hcp Hk Hpid Ha Hkill.
  apply (wp_total_elim _ (fun _ w' => head (timers w') = Some KillCurrentGroup)).
  unfold stop, killAllProcesses. wp_run.
  unfold wp at 1. rewrite (kill_current_graceful env w h a Hcp Hk Hpid Ha Hkill).
  wp_run.
  wp_apply (kill_tracked_keeps_head env KillCurrentGroup) as w2 H2.
  - simpl. rewrite Ht. reflexivity.
  - wp_run. exact H2.
Qed.

Lemma deref_with_timers f w i : deref (with_timers f w) i = deref w i.
Proof. reflexivity. Qed.

Lemma deref_with_trace f w i : deref (with_trace f w) i = deref w i.
Proof. reflexivity. Qed.

Lemma deref_with_this f w i : deref (with_this f w) i = deref w i.
Proof. reflexivity. Qed.

Lemma deref_launched w p f :
  deref (with_heap (fun hp => hp ++ [new_process p]) (with_trace f w))
    (length (heap w)) = new_process p.
Proof.
  unfold deref. simpl. rewrite lookup_app_r by reflexivity.
  rewrite Nat.sub_diag. reflexivity.
Qed.

(** What [play_try] leaves when mpv starts with an identifier. *)
Lemma play_try_started env station b t w :
  spawn_result env (trace w) "mpv" (mpv_args station) = Spawned (Some b) ->
  head (timers w) = Some t ->
  wp (play_try env station)
     (fun _ w' =>
        head (timers w') = Some t /\
        existsb is_resume (timers w') = true /\
        currentProcess (this w') = Some (length (heap w)) /\
        killed (deref w' (length (heap w))) = false /\
        pid (deref w' (length (heap w))) = Some b)
     (fun _ => False) w.
Proof.
  intros Hs Ht. unfold play_try. apply wp_try_catch. apply wp_bind.
  apply wp_spawn_cases.
  - intros e He. rewrite Hs in He. discriminate He.
  - intros p Hp. rewrite Hs in Hp. injection Hp as <-.
    wp_run.
    all: split; [simpl; destruct (timers w); [discriminate Ht | exact Ht]|].
    all: split; [simpl; rewrite existsb_app; simpl; apply orb_true_r|].
    all: split; [reflexivity|].
    all: rewrite !deref_with_timers, !deref_with_trace.
    all: rewrite !(deref_alter_heap killed), !(deref_alter_heap pid)
      by (intros []; reflexivity).
    all: rewrite ?deref_with_this.
    all: rewrite deref_launched; split; reflexivity.
Qed.

Lemma await_resume_fires_deferred_kill env w h b :
  head (timers w) = Some KillCurrentGroup ->
  existsb is_resume (timers w) = true ->
  currentProcess (this w) = Some h ->
  killed (deref w h) = false ->
  pid (deref w h) = Some b -> b <> 0%Z ->
  wp (await_resume env)
     (fun _ w' => this w' = this w /\ heap w' = heap w /\
                  signalled SIGKILL w (- b) w')
     (fun _ => False) w.
Proof.
  intros Hhead Hres Hcp Hk Hpid Hb. unfold await_resume.
  apply wp_bind, wp_gets. rewrite Hres. destruct (timers w) as [|t q] eqn:Hq; [discriminate Hhead|].
  injection Hhead as ->. simpl in Hres. simpl. rewrite Hres. apply wp_bind.
  wp_apply fire_timer_spec as w1 H1.
  destruct H1 as (A1 & A2 & _ & _ & _ & Hcur).
  assert (Hs : signalled SIGKILL w (- b) w1).
  { apply (Hcur h b); try assumption. rewrite Hq. reflexivity. }
  apply (stable_fire_through_resume env
           (fun w' => this w' = this w /\ heap w' = heap w /\
                      signalled SIGKILL w (- b) w') any_effect); auto.
  intros w2 e _ (B1 & B2 & B3). split; [exact B1|]. split; [exact B2|].
  apply signalled_snoc, B3.
Qed.

(** X5: one [play] after another.  The process of the first has an
    identifier and takes the SIGTERM of the [stop] inside the second
    [play]; mpv starts again with identifier [b].  The deferred forced
    kill that this [stop] has set for "the current process" looks at
    [this.currentProcess] when it fires (line 171), and is due before the
    continuation of the second [play]: by the time the awaited [play]
    returns, SIGKILL has been sent to the process group of the new
    process, which is still the current one. *)
Theorem deferred_kill_hits_new_process env station w h a b :
  timers w = [] ->
  currentProcess (this w) = Some h ->
  killed (deref w h) = false ->
  pid (deref w h) = Some a -> a <> 0%Z ->
  kill_result env (trace w) (- a) SIGTERM = None ->
  spawn_result env (trace (snd (stop env w))) "mpv" (mpv_args station)
  = Spawned (Some b) ->
  b <> 0%Z ->
  fst (play env station [] w) = Normal tt /\
  currentProcess (this (snd (play env station [] w))) = Some (length (heap w)) /\
  pid (deref (snd (play env station [] w)) (length (heap w))) = Some b /\
  In (ProcessKill (- b) SIGKILL) (trace (snd (play env station [] w))).
Proof.
  intros Ht Hcp Hk Hpid Ha Hkill Hspawn Hb.
  pose proof (stop_first_timer env w h a Ht Hcp Hk Hpid Ha Hkill) as Hhead.
  pose proof (wp_total_elim _ _ _ (stop_clears env w)) as (Hc & Hthis & Hheap).
  assert (H : wp (play env station [])
                 (fun _ w' =>
                    currentProcess (this w') = Some (length (heap w)) /\
                    pid (deref w' (length (heap w))) = Some b /\
                    In (ProcessKill (- b) SIGKILL) (trace w'))
                 (fun _ => False) w).
  { unfold play, play_begin. wp_run. unfold wp at 1.
    rewrite (surjective_pairing (stop env w)), Hc.
    set (w1 := snd (stop env w)) in *. wp_run.
    rewrite <- Hheap.
    wp_apply (play_try_started env station b KillCurrentGroup) as w2 H2;
      [exact Hspawn | exact Hhead |].
    destruct H2 as (B1 & B2 & B3 & B4 & B5). unfold exec. simpl. wp_run.
    wp_apply (await_resume_fires_deferred_kill env w2 (length (heap w1)) b
                B1 B2 B3 B4 B5 Hb) as w3 H3.
    destruct H3 as (C1 & C2 & (tr & Htr & Hin)).
    split; [rewrite C1; exact B3|]. split.
    - unfold deref in *. rewrite C2. exact B5.
    - rewrite Htr. apply in_or_app. right. exact Hin. }
  apply wp_total_elim in H. exact H.
Qed.

Lemma deferred_kill_hits_new_process_witness :
  let w := snd (play healthy test_fm [] initial) in
  pid (deref w 0) = Some 1000%Z /\
  fst (play healthy test_fm [] w) = Normal tt /\
  currentProcess (this (snd (play healthy test_fm [] w))) = Some (length (heap w)) /\
  pid (deref (snd (play healthy test_fm [] w)) (length (heap w))) = Some 1001%Z /\
  In (ProcessKill (- 1001) SIGKILL) (trace (snd (play healthy test_fm [] w))).
Proof.
  split; [reflexivity|].
  apply (deferred_kill_hits_new_process healthy test_fm
           (snd (play healthy test_fm [] initial)) 0 1000%Z 1001%Z);
    try reflexivity; discriminate.
Defined.

(** ** The orphan sweep *)

Lemma wp_execSync_cases env cmd Q E w :
  (forall e, execSync_result env (trace w) cmd = inl e ->
             E (with_trace (fun t => t ++ [ExecSync cmd]) w)) ->
  (forall out, execSync_result env (trace w) cmd = inr out ->
               Q out (with_trace (fun t => t ++ [ExecSync cmd]) w)) ->
  wp (execSync env cmd) Q E w.
Proof.
  intros He Hq. unfold wp, execSync. simpl.
  destruct (execSync_result env (trace w) cmd) as [e|out];
    [apply (He e) | apply (Hq out)]; reflexivity.
Qed.

(** One turn of the loop: a SIGKILL for the identifier of the line, if it
    has one, whatever the signal does. *)
Lemma sweep_line env line w :
  wp (when (negb (String.eqb line ""))
        (try_catch (kill_parsed env line) (fun _ => ret tt)))
     (fun _ w' =>
        trace w' = trace w ++ List.map (fun z => ProcessKill z SIGKILL) (line_target line))
     (fun _ => False) w.
Proof.
  unfold line_target, kill_parsed.
  destruct (String.eqb line ""); simpl.
  - apply wp_ret. symmetry. apply app_nil_r.
  - destruct (parseInt line) as [z|]; wp_run; simpl; try reflexivity.
    symmetry. apply app_nil_r.
Qed.

Lemma sweep_lines env lines :
  forall w,
    wp (for_of lines (fun line =>
          when (negb (String.eqb line ""))
            (try_catch (kill_parsed env line) (fun _ => ret tt))))
       (fun _ w' =>
          trace w' = trace w ++
                     List.map (fun z => ProcessKill z SIGKILL) (flat_map line_target lines))
       (fun _ => False) w.
Proof.
  induction lines as [|line lines IH]; intros w; simpl.
  - apply wp_ret. symmetry. apply app_nil_r.
  - apply wp_bind. wp_apply (sweep_line env line) as w1 H1.
    wp_apply (IH w1) as w2 H2.
    rewrite H2, H1, List.map_app, app_assoc. reflexivity.
Qed.

Lemma sweep_trace env binary w :
  wp (sweep env binary)
     (fun _ w' =>
        trace w' = trace w ++
                   sweep_effects binary (execSync_result env (trace w) ("pgrep " ++ binary)))
     (fun _ => False) w.
Proof.
  unfold sweep, sweep_effects. apply wp_try_catch, wp_bind, wp_execSync_cases.
  - intros e He e'. rewrite He. apply wp_ret. reflexivity.
  - intros out Hout. rewrite Hout.
    wp_apply (sweep_lines env (split_lines (trim out))) as w1 H1.
    rewrite H1. simpl. rewrite <- app_assoc. reflexivity.
Qed.

Lemma killOrphanedProcesses_trace env w :
  wp (killOrphanedProcesses env)
     (fun _ w' =>
        trace w'
        = (trace w ++ sweep_effects "mpv" (execSync_result env (trace w) "pgrep mpv"))
          ++ sweep_effects "vlc"
               (execSync_result env
                  (trace w ++ sweep_effects "mpv" (execSync_result env (trace w) "pgrep mpv"))
                  "pgrep vlc"))
     (fun _ => False) w.
Proof.
  unfold killOrphanedProcesses. wp_run.
  wp_apply (sweep_trace env "mpv") as w1 H1.
  wp_apply (sweep_trace env "vlc") as w2 H2.
  rewrite H2, H1. reflexivity.
Qed.

(** X6: the orphan sweep, when [pgrep] answers in plain text (ASCII, no
    number beyond 2^53).  It always runs [pgrep mpv] and then
    [pgrep vlc], and after each [pgrep] that answers it sends SIGKILL to
    every identifier in the answer, line by line.  A signal that fails, a
    line that is no number, a [pgrep] that fails: none of them stops the
    rest of the sweep, none of them reaches the caller, and the sweep has
    no other effect. *)
Theorem orphan_sweep_trace env w :
  plain_answers env ->
  let after_mpv :=
    trace w ++ sweep_effects "mpv" (execSync_result env (trace w) "pgrep mpv") in
  fst (killOrphanedProcesses env w) = Normal tt /\
  trace (snd (killOrphanedProcesses env w))
  = after_mpv ++ sweep_effects "vlc" (execSync_result env after_mpv "pgrep vlc") /\
  this (snd (killOrphanedProcesses env w)) = this w /\
  heap (snd (killOrphanedProcesses env w)) = heap w /\
  timers (snd (killOrphanedProcesses env w)) = timers w.
Proof.
  intros _ after_mpv.
  pose proof (wp_total_elim _ _ _ (killOrphanedProcesses_frame env w))
    as (Hc & A1 & A2 & A3).
  split; [exact Hc|]. split; [|repeat split; assumption].
  exact (proj2 (wp_total_elim _ _ _ (killOrphanedProcesses_trace env w))).
Qed.

Lemma with_orphans_plain : plain_answers with_orphans.
Proof.
  intros t cmd out. simpl.
  destruct (String.eqb cmd "pgrep mpv"); [|destruct (String.eqb cmd "pgrep vlc")];
    intros H; try discriminate H; injection H as <-;
    (split; [reflexivity | repeat constructor; vm_compute; discriminate]).
Qed.

Lemma orphan_sweep_trace_witness :
  fst (killOrphanedProcesses with_orphans initial) = Normal tt /\
  trace (snd (killOrphanedProcesses with_orphans initial))
  = [ExecSync "pgrep mpv"; ProcessKill 4711 SIGKILL; ProcessKill 4712 SIGKILL;
     ExecSync "pgrep vlc"; ProcessKill 4800 SIGKILL] /\
  this (snd (killOrphanedProcesses with_orphans initial)) = this initial /\
  heap (snd (killOrphanedProcesses with_orphans initial)) = heap initial /\
  timers (snd (killOrphanedProcesses with_orphans initial)) = timers initial.
Proof.
  exact (orphan_sweep_trace with_orphans initial with_orphans_plain).
Defined.

(** ** Reading the output of [pgrep] *)

Lemma digit_plain c :
  is_digit c = true -> is_whitespace c = false /\ Ascii.eqb c newline = false.
Proof.
  destruct c as [[] [] [] [] [] [] [] []]; vm_compute; intros H;
    try discriminate H; split; reflexivity.
Qed.

Lemma digit_decimal c :
  is_digit c = true ->
  exists d, digit_value c = Some d /\ (0 <= d < 10)%Z.
Proof.
  destruct c as [[] [] [] [] [] [] [] []]; intros H; vm_compute in H;
    try discriminate H; eexists; (split; [vm_compute; reflexivity|lia]).
Qed.

Lemma string_of_uint_digits d : all_digits (NilEmpty.string_of_uint d) = true.
Proof. induction d; simpl; auto. Qed.

Lemma decimal_digits n : all_digits (decimal n) = true.
Proof. apply string_of_uint_digits. Qed.

Lemma decimal_nonempty n : decimal n <> "".
Proof.
  unfold decimal. destruct n as [|p]; simpl; [discriminate|].
  pose proof (DecimalPos.Unsigned.to_uint_nonnil p) as H.
  destruct (Pos.to_uint p); simpl; try discriminate. contradiction.
Qed.

Ltac eval_ascii :=
  repeat match goal with
  | |- context [Z.of_nat (nat_of_ascii ?c)] =>
      let v := eval vm_compute in (Z.of_nat (nat_of_ascii c)) in
      change (Z.of_nat (nat_of_ascii c)) with v
  end.

Lemma parse_digits_acc d :
  forall acc,
    parse_digits 10 (NilEmpty.string_of_uint d) (Some (Z.pos acc))
    = Some (Z.pos (Pos.of_uint_acc d acc)).
Proof.
  induction d; intros acc; simpl; try reflexivity;
    rewrite <- IHd; do 2 f_equal; eval_ascii; lia.
Qed.

Lemma parse_digits_zero d :
  parse_digits 10 (NilEmpty.string_of_uint d) (Some 0%Z)
  = Some (Z.of_N (Pos.of_uint d)).
Proof.
  induction d; simpl; try reflexivity; try exact IHd;
    apply (parse_digits_acc d).
Qed.

Lemma parse_digits_start d :
  d <> Decimal.Nil ->
  parse_digits 10 (NilEmpty.string_of_uint d) None
  = Some (Z.of_N (Pos.of_uint d)).
Proof.
  intros Hd. rewrite <- parse_digits_zero.
  destruct d; [contradiction|..]; reflexivity.
Qed.

Ltac eval_acc :=
  eval_ascii;
  match goal with
  | |- context [parse_digits 10 _ (Some ?a)] =>
      let v := eval vm_compute in a in change a with v
  end.

Lemma parseInt_uint d :
  d <> Decimal.Nil ->
  parseInt (NilEmpty.string_of_uint d) = Some (Z.of_N (Pos.of_uint d)).
Proof.
  intros Hd. unfold parseInt.
  destruct d as [|d|d|d|d|d|d|d|d|d|d]; [contradiction|..];
    try (simpl; eval_acc; rewrite parse_digits_acc; reflexivity).
  destruct d as [|d|d|d|d|d|d|d|d|d|d]; [reflexivity|..];
    try (simpl; eval_acc; rewrite parse_digits_acc; reflexivity).
  simpl. eval_acc. rewrite parse_digits_zero. reflexivity.
Qed.

Lemma parseInt_decimal n : parseInt (decimal n) = Some (Z.of_N n).
Proof.
  unfold decimal. rewrite parseInt_uint.
  - change (Pos.of_uint (N.to_uint n)) with (N.of_uint (N.to_uint n)).
    rewrite DecimalN.Unsigned.of_to. reflexivity.
  - destruct n as [|p]; [discriminate|]. apply DecimalPos.Unsigned.to_uint_nonnil.
Qed.

Lemma line_target_decimal n : line_target (decimal n) = [Z.of_N n].
Proof.
  unfold line_target. rewrite parseInt_decimal.
  destruct (String.eqb_spec (decimal n) "") as [H|_]; [|reflexivity].
  destruct (decimal_nonempty n H).
Qed.

(** *** Lines *)

Lemma split_lines_single s : all_digits s = true -> split_lines s = [s].
Proof.
  induction s as [|c s IH]; simpl; [reflexivity|].
  intros [Hc Hs]%andb_prop. destruct (digit_plain c Hc) as [_ ->].
  rewrite (IH Hs). reflexivity.
Qed.

Lemma split_lines_next s rest :
  all_digits s = true ->
  split_lines (s ++ String newline rest) = s :: split_lines rest.
Proof.
  induction s as [|c s IH]; simpl; [reflexivity|].
  intros [Hc Hs]%andb_prop. destruct (digit_plain c Hc) as [_ ->].
  rewrite (IH Hs). reflexivity.
Qed.

(** *** Trimming *)

Lemma list_ascii_of_string_app s t :
  list_ascii_of_string (s ++ t) = list_ascii_of_string s ++ list_ascii_of_string t.
Proof. induction s as [|c s IH]; simpl; [reflexivity|]. rewrite IH. reflexivity. Qed.

Lemma string_of_list_ascii_app l m :
  string_of_list_ascii (l ++ m)
  = (string_of_list_ascii l ++ string_of_list_ascii m)%string.
Proof. induction l as [|c l IH]; simpl; [reflexivity|]. rewrite IH. reflexivity. Qed.

Lemma string_app_assoc (s t u : string) :
  ((s ++ t) ++ u = s ++ (t ++ u))%string.
Proof. induction s as [|c s IH]; [reflexivity|]. exact (f_equal (String c) IH). Qed.

Lemma string_rev_app s t :
  string_rev (s ++ t) = (string_rev t ++ string_rev s)%string.
Proof.
  unfold string_rev.
  rewrite list_ascii_of_string_app, rev_app_distr, string_of_list_ascii_app.
  reflexivity.
Qed.

Lemma string_rev_involutive s : string_rev (string_rev s) = s.
Proof.
  unfold string_rev.
  rewrite list_ascii_of_string_of_list_ascii, rev_involutive.
  apply string_of_list_ascii_of_string.
Qed.

Lemma last_digit s :
  all_digits s = true -> s <> "" ->
  exists front c, s = (front ++ String c "")%string /\ is_digit c = true.
Proof.
  induction s as [|c s IH]; [intros _ H; destruct H; reflexivity|].
  simpl. intros [Hc Hs]%andb_prop _. destruct s as [|c' s'].
  - exists "", c. split; [reflexivity|exact Hc].
  - destruct (IH Hs) as (front & c0 & Hfront & Hc0); [discriminate|].
    exists (String c front), c0. split; [|exact Hc0].
    rewrite Hfront. reflexivity.
Qed.

Lemma string_rev_cons c s :
  string_rev (String c s) = (string_rev s ++ String c "")%string.
Proof.
  change (String c s) with (String c "" ++ s)%string.
  rewrite string_rev_app. reflexivity.
Qed.

(** [trim] removes the line feed after the last line and nothing else. *)
Lemma trim_output c rest front c' :
  is_digit c = true -> is_digit c' = true ->
  String c rest = (front ++ String c' "")%string ->
  trim (String c rest ++ String newline "") = String c rest.
Proof.
  intros Hc Hc' Hshape. unfold trim.
  assert (Hstart : trim_start (String c rest ++ String newline "")
                   = (String c rest ++ String newline "")%string).
  { simpl. destruct (digit_plain c Hc) as [-> _]. reflexivity. }
  rewrite Hstart, Hshape, !string_rev_app.
  assert (Hend : trim_start (string_rev (String newline "")
                             ++ (string_rev (String c' "") ++ string_rev front))
                 = String c' (string_rev front)).
  { change (trim_start (String newline (String c' (string_rev front)))
            = String c' (string_rev front)).
    simpl. destruct (digit_plain c' Hc') as [-> _]. reflexivity. }
  rewrite Hend, string_rev_cons, string_rev_involutive. reflexivity.
Qed.

Lemma pgrep_output_shape n pids :
  exists c rest front c',
    pgrep_output (n :: pids) = (String c rest ++ String newline "")%string /\
    is_digit c = true /\ is_digit c' = true /\
    String c rest = (front ++ String c' "")%string /\
    split_lines (String c rest) = List.map decimal (n :: pids).
Proof.
  revert n. induction pids as [|m pids IH]; intros n.
  - destruct (last_digit (decimal n) (decimal_digits n) (decimal_nonempty n))
      as (front & c' & Hfront & Hc').
    pose proof (decimal_digits n) as Hn. pose proof (decimal_nonempty n) as Hne.
    change (pgrep_output [n]) with (decimal n ++ String newline "")%string.
    change (List.map decimal [n]) with [decimal n].
    destruct (decimal n) as [|c rest] eqn:Hd; [destruct Hne; reflexivity|].
    exists c, rest, front, c'. pose proof Hn as [Hc _]%andb_prop.
    split; [reflexivity|]. split; [exact Hc|]. split; [exact Hc'|].
    split; [exact Hfront|]. apply split_lines_single, Hn.
  - destruct (IH m) as (c1 & rest1 & front1 & c' & Hout & Hc1 & Hc' & Hshape & Hsplit).
    pose proof (decimal_digits n) as Hn. pose proof (decimal_nonempty n) as Hne.
    change (pgrep_output (n :: m :: pids))
      with (decimal n ++ String newline (pgrep_output (m :: pids)))%string.
    rewrite Hout.
    destruct (decimal n) as [|c rest] eqn:Hd; [destruct Hne; reflexivity|].
    exists c, (rest ++ String newline (String c1 rest1))%string,
      (String c rest ++ String newline front1)%string, c'.
    pose proof Hn as Hn'. simpl in Hn'. apply andb_prop in Hn' as [Hc Hrest].
    split; [|split; [exact Hc|split; [exact Hc'|split]]].
    + exact (f_equal (String c)
               (eq_sym (string_app_assoc rest (String newline (String c1 rest1))
                          (String newline "")))).
    + rewrite Hshape.
      exact (f_equal (String c)
               (eq_sym (string_app_assoc rest (String newline front1) (String c' "")))).
    + change (String c (rest ++ String newline (String c1 rest1)))
        with (String c rest ++ String newline (String c1 rest1))%string.
      rewrite (split_lines_next _ _ Hn), Hsplit.
      change (List.map decimal (n :: m :: pids))
        with (decimal n :: List.map decimal (m :: pids)).
      rewrite Hd. reflexivity.
Qed.

Lemma sweep_targets_output pids :
  sweep_targets (pgrep_output pids) = List.map Z.of_N pids.
Proof.
  destruct pids as [|n pids]; [reflexivity|].
  destruct (pgrep_output_shape n pids)
    as (c & rest & front & c' & Hout & Hc & Hc' & Hshape & Hsplit).
  unfold sweep_targets. rewrite Hout, (trim_output c rest front c' Hc Hc' Hshape), Hsplit.
  generalize (n :: pids). intros l. induction l as [|k l IH]; [reflexivity|].
  simpl. rewrite line_target_decimal, IH. reflexivity.
Qed.

(** *** The sweep on the output of [pgrep] *)


(** X7: when [pgrep mpv] and [pgrep vlc] print the identifiers of the
    processes they find in decimal, one per line, the orphan sweep sends
    SIGKILL to exactly these processes, in the order printed, and to
    nothing else: reading the output ([trim], [split], the test for the
    empty line, [parseInt]) loses no identifier and invents none. *)
Theorem orphan_sweep_kills_listed env w mpvs vlcs :
  Forall (fun n => (n <= 9007199254740991)%N) (mpvs ++ vlcs) ->
  execSync_result env (trace w) "pgrep mpv" = inr (pgrep_output mpvs) ->
  execSync_result env (trace w ++ ExecSync "pgrep mpv" :: forced_kills mpvs) "pgrep vlc"
  = inr (pgrep_output vlcs) ->
  trace (snd (killOrphanedProcesses env w))
  = trace w ++ ExecSync "pgrep mpv" :: forced_kills mpvs
            ++ ExecSync "pgrep vlc" :: forced_kills vlcs.
Proof.
  intros _ Hmpv Hvlc.
  destruct (wp_total_elim _ _ _ (killOrphanedProcesses_trace env w)) as [_ ->].
  rewrite Hmpv. unfold sweep_effects.
  rewrite !sweep_targets_output, !List.map_map.
  change (trace w ++ ExecSync ("pgrep " ++ "mpv")
          :: List.map (fun x => ProcessKill (Z.of_N x) SIGKILL) mpvs)
    with (trace w ++ ExecSync "pgrep mpv" :: forced_kills mpvs).
  rewrite Hvlc, sweep_targets_output, List.map_map, <- app_assoc. reflexivity.
Qed.

Lemma orphan_sweep_kills_listed_witness :
  trace (snd (killOrphanedProcesses with_orphans initial))
  = [ExecSync "pgrep mpv"; ProcessKill 4711 SIGKILL; ProcessKill 4712 SIGKILL;
     ExecSync "pgrep vlc"; ProcessKill 4800 SIGKILL].
Proof.
  apply (orphan_sweep_kills_listed with_orphans initial [4711; 4712]%N [4800]%N).
  - repeat constructor; vm_compute; discriminate.
  - reflexivity.
  - reflexivity.
Defined.

(** ** Which deferred kills a graceful stop sets *)

Lemma scheduled_refl P w : scheduled P w w.
Proof. exists []. split; [symmetry; apply app_nil_r | constructor]. Qed.

Lemma delivered_in_grow env w0 w w' p more :
  trace w' = trace w ++ more -> delivered_in env w0 w p -> delivered_in env w0 w' p.
Proof.
  intros Hw' (before & after & Htr & Hres). exists before, (after ++ more).
  split; [|exact Hres]. rewrite Hw', Htr, <- !app_assoc. reflexivity.
Qed.

Lemma deferred_for_grow env w0 w w' t more :
  trace w' = trace w ++ more -> deferred_for env w0 w t -> deferred_for env w0 w' t.
Proof.
  intros Hw'. destruct t as [station| |p]; simpl; [auto | auto |].
  intros [Hin Hd]. split; [exact Hin | exact (delivered_in_grow env w0 w w' p more Hw' Hd)].
Qed.

Lemma defers_refl env w : defers env w w.
Proof.
  split; [reflexivity|]. split; [exists []; symmetry; apply app_nil_r|].
  apply scheduled_refl.
Qed.

Lemma defers_effect env w0 w e :
  defers env w0 w -> defers env w0 (with_trace (fun t => t ++ [e]) w).
Proof.
  intros (Hthis & (tr & Htr) & added & Hq & Hall).
  split; [exact Hthis|]. split.
  - exists (tr ++ [e]). simpl. rewrite Htr, app_assoc. reflexivity.
  - exists added. split; [exact Hq|].
    eapply Forall_impl; [exact Hall|]. intros t.
    apply (deferred_for_grow env w0 w _ t [e]). reflexivity.
Qed.

Lemma defers_timer env w0 w t :
  deferred_for env w0 w t -> defers env w0 w ->
  defers env w0 (with_timers (fun q => q ++ [t]) w).
Proof.
  intros Ht (Hthis & Htr & added & Hq & Hall).
  split; [exact Hthis|]. split; [exact Htr|].
  exists (added ++ [t]). split.
  - simpl. rewrite Hq, app_assoc. reflexivity.
  - apply Forall_app. split; [exact Hall | constructor; [exact Ht | constructor]].
Qed.

(** The signal that was just sent and delivered, and the timer set after
    it. *)
Lemma delivered_in_now env w0 w p :
  (exists tr, trace w = trace w0 ++ tr) ->
  kill_result env (trace w) (- p) SIGTERM = None ->
  delivered_in env w0
    (with_trace (fun t => t ++ [SetTimeout 1000])
       (with_trace (fun t => t ++ [ProcessKill (- p) SIGTERM]) w)) p.
Proof.
  intros [tr Htr] Hres. exists tr, []. split.
  - simpl. rewrite Htr, <- !app_assoc. reflexivity.
  - rewrite <- Htr. exact Hres.
Qed.

Lemma kill_current_defers env w :
  wp (kill_current env false) (fun _ => defers env w) (fun _ => False) w.
Proof.
  unfold kill_current. apply wp_bind, wp_gets.
  destruct (currentProcess (this w)) as [h|] eqn:Hcp; [|apply wp_ret, defers_refl].
  apply wp_bind, wp_gets.
  apply wp_when; [intros Hk%negb_true_iff | intros _; apply defers_refl].
  apply wp_try_catch. apply wp_bind, wp_if_pid.
  - intros z Hpid Hz. apply wp_process_kill_cases.
    + intros e _ e'. apply wp_ret, defers_effect, defers_refl.
    + intros Hdelivered. wp_run.
      apply defers_timer; [|apply defers_effect, defers_effect, defers_refl].
      exists h. split; [exact Hcp|]. split; [exact Hk|]. intros z' Hpid' _.
      rewrite Hpid in Hpid'. injection Hpid' as <-. exact Hdelivered.
  - intros Hfalsy. wp_run.
    apply defers_timer; [|apply defers_effect, defers_refl].
    exists h. split; [exact Hcp|]. split; [exact Hk|]. intros z Hpid Hz.
    rewrite Hpid in Hfalsy. simpl in Hfalsy.
    destruct (Z.eqb_spec z 0) as [E|_]; [contradiction | discriminate Hfalsy].
Qed.

Lemma kill_tracked_defers env w0 w :
  defers env w0 w ->
  wp (kill_tracked env false) (fun _ => defers env w0) (fun _ => False) w.
Proof.
  intros H. unfold kill_tracked. wp_run.
  apply wp_for_of; [exact H|].
  intros z w1 Hz%list_elem_of_In H1. cbv beta.
  apply wp_try_catch. try wp_const. apply wp_bind, wp_process_kill_cases.
  - intros e _ e'. wp_run. apply defers_effect, H1.
  - intros Hdelivered. wp_run.
    apply defers_timer; [|apply defers_effect, defers_effect, H1].
    destruct H as (Hthis & _). destruct H1 as (_ & Htr & _).
    split; [rewrite <- Hthis; exact Hz|].
    apply delivered_in_now; assumption.
Qed.

(** X8: the timers that [stop] sets.  [stop] only adds to the timer
    queue.  A deferred kill of the current process is added only when
    there was a current process, not marked as killed, whose SIGTERM, if
    it had an identifier, was delivered.  A deferred kill of the group of [p] is added only
    when [p] was tracked and a SIGTERM that this very call sent to the
    group was delivered, by what the environment answered at the moment
    of the signal, with the timer set right after it: a group to which
    every SIGTERM of this call throws gets no deferred SIGKILL.  [stop]
    never schedules a [play] continuation. *)
Theorem stop_defers_only_delivered env w :
  exists added,
    timers (snd (stop env w)) = timers w ++ added /\
    Forall (deferred_for env w (snd (stop env w))) added /\
    forall p,
      (forall before after,
         trace (snd (stop env w))
         = trace w ++ before ++ ProcessKill (- p) SIGTERM :: after ->
         kill_result env (trace w ++ before) (- p) SIGTERM <> None) ->
      ~ In (KillGroup p) added.
Proof.
  assert (H : scheduled (deferred_for env w (snd (stop env w))) w (snd (stop env w))).
  { apply (wp_total_elim _ (fun _ w' => scheduled (deferred_for env w w') w w')).
    unfold stop, killAllProcesses. wp_run.
    wp_apply (kill_current_defers env w) as w1 H1. wp_run.
    wp_apply (kill_tracked_defers env w w1 H1) as w2 H2. wp_run.
    destruct H2 as (_ & _ & H2). exact H2. }
  destruct H as (added & Hq & Hall). exists added.
  split; [exact Hq|]. split; [exact Hall|].
  intros p Hthrown Hin. rewrite Forall_forall in Hall.
  destruct (Hall _ (proj2 (list_elem_of_In _ _) Hin))
    as [_ (before & after & Htr & Hres)].
  exact (Hthrown before (SetTimeout 1000 :: after) Htr Hres).
Qed.

(** ** Whom the player signals *)

Lemma owned_deref w h z : pid (deref w h) = Some z -> z <> 0%Z -> owned w z.
Proof.
  unfold deref. intros Hpid Hz. split; [exact Hz|].
  destruct (heap w !! h) as [p|] eqn:Hh; [|discriminate Hpid].
  rewrite <- Hpid. apply in_map, list_elem_of_In, (list_elem_of_lookup_2 _ h), Hh.
Qed.

Lemma pids_alter_heap f h hp :
  (forall p, pid (f p) = pid p) ->
  List.map pid (alter_heap f h hp) = List.map pid hp.
Proof.
  intros Hf. unfold alter_heap. destruct (hp !! h) as [p|] eqn:Hh; [|reflexivity].
  revert h Hh. induction hp as [|q hp IH]; intros [|h] Hh; simpl in *;
    try discriminate Hh.
  - injection Hh as ->. rewrite Hf. reflexivity.
  - f_equal. apply IH, Hh.
Qed.

Lemma signals_own_heap w w' :
  this w' = this w -> trace w' = trace w ->
  (forall p, owned w p -> owned w' p) ->
  signals_own w -> signals_own w'.
Proof.
  intros Hthis Htrace Hmono [Hids Htr]. unfold signals_own. rewrite Hthis, Htrace.
  split.
  - eapply Forall_impl; [exact Hids|]. exact Hmono.
  - eapply Forall_impl; [exact Htr|]. intros [] H; simpl in *; try exact H.
    destruct sig; [apply Hmono, H | exact H].
Qed.

Lemma own_effect w e :
  own_signal w e -> signals_own w -> signals_own (with_trace (fun t => t ++ [e]) w).
Proof.
  intros He [Hids Htr]. split; [exact Hids|].
  apply Forall_app. split; [exact Htr | constructor; [exact He | constructor]].
Qed.

Lemma own_SIGTERM w z :
  owned w z -> signals_own w ->
  signals_own (with_trace (fun t => t ++ [ProcessKill (- z) SIGTERM]) w).
Proof.
  intros Hz. apply own_effect. simpl. rewrite Z.opp_involutive. exact Hz.
Qed.

Lemma own_timers w f : signals_own w -> signals_own (with_timers f w).
Proof. intros H. exact H. Qed.

Lemma own_alter w f h :
  (forall p, pid (f p) = pid p) ->
  signals_own w -> signals_own (with_heap (alter_heap f h) w).
Proof.
  intros Hf. apply signals_own_heap; [reflexivity | reflexivity |].
  intros p [Hp Hin]. split; [exact Hp|]. simpl. rewrite pids_alter_heap; assumption.
Qed.

Lemma own_alloc w p :
  signals_own w -> signals_own (with_heap (fun hp => hp ++ [new_process p]) w).
Proof.
  apply signals_own_heap; [reflexivity | reflexivity |].
  intros z [Hz Hin]. split; [exact Hz|]. simpl. rewrite List.map_app.
  apply in_or_app. left. exact Hin.
Qed.

Lemma own_process w p :
  signals_own w -> signals_own (with_this (put_currentProcess p) w).
Proof. intros H. exact H. Qed.

Lemma own_station w s :
  signals_own w -> signals_own (with_this (put_currentStation s) w).
Proof. intros H. exact H. Qed.

Lemma own_clear w : signals_own w -> signals_own (with_this (put_processIds []) w).
Proof. intros [_ Htr]. split; [constructor | exact Htr]. Qed.

Lemma own_push w z :
  owned w z -> signals_own w ->
  signals_own (with_this (put_processIds (processIds (this w) ++ [z])) w).
Proof.
  intros Hz [Hids Htr]. split; [|exact Htr].
  apply Forall_app. split; [exact Hids | constructor; [exact Hz | constructor]].
Qed.

Create HintDb own.

#[local] Hint Resolve own_timers own_alloc own_process own_station own_clear : own.
#[local] Hint Extern 2 (signals_own (with_trace _ _)) =>
  apply own_effect; [exact Logic.I|] : own.
#[local] Hint Extern 2 (signals_own (with_heap (alter_heap _ _) _)) =>
  apply own_alter; [intros []; reflexivity|] : own.

Lemma own_kill_current env force w :
  signals_own w -> wp (kill_current env force) (fun _ => signals_own) (fun _ => False) w.
Proof.
  intros H. unfold kill_current. wp_run; auto with own.
  all: repeat first [apply own_timers | apply own_effect; [exact Logic.I|]].
  all: apply own_SIGTERM; [|exact H]; eapply owned_deref; eassumption.
Qed.

Lemma own_kill_tracked env force w :
  signals_own w -> wp (kill_tracked env force) (fun _ => signals_own) (fun _ => False) w.
Proof.
  intros H. unfold kill_tracked. wp_run.
  eapply wp_mono;
    [apply (wp_for_of _ _ (fun w' => signals_own w' /\ this w' = this w)
              (fun _ => False))
    | cbv beta; intros ? ? [H' _]; exact H' | cbv beta; intros ? []].
  - split; [exact H | reflexivity].
  - intros z w1 Hz%list_elem_of_In [H1 Hthis].
    assert (Hown : owned w1 z).
    { destruct H1 as [Hids _]. rewrite Forall_forall in Hids.
      apply Hids. rewrite Hthis. apply list_elem_of_In, Hz. }
    wp_run; (split; [|exact Hthis]); auto with own.
    all: repeat first [apply own_timers | apply own_effect; [exact Logic.I|]].
    all: apply own_SIGTERM; assumption.
Qed.

Lemma own_killAllProcesses env force w :
  signals_own w ->
  wp (killAllProcesses env force) (fun _ => signals_own) (fun _ => False) w.
Proof.
  intros H. unfold killAllProcesses. wp_run.
  wp_apply (own_kill_current env force w H) as w1 H1. wp_run.
  wp_apply (own_kill_tracked env force w1 H1) as w2 H2. wp_run.
  apply own_clear, H2.
Qed.

Lemma own_stop env w :
  signals_own w -> wp (stop env) (fun _ => signals_own) (fun _ => False) w.
Proof.
  intros H. unfold stop. wp_run.
  wp_apply (own_killAllProcesses env false w H) as w1 H1. wp_run. exact H1.
Qed.

Lemma own_signal_heap w0 w e :
  heap w = heap w0 -> own_signal w0 e -> own_signal w e.
Proof.
  intros Hheap. destruct e; try (intros; exact Logic.I).
  destruct sig; [|intros; exact Logic.I]. unfold own_signal, owned.
  rewrite Hheap. intros H. exact H.
Qed.

Lemma own_grown P w0 w :
  (forall e, P e = true -> own_signal w0 e) ->
  this w = this w0 -> heap w = heap w0 -> grown_by P w0 w ->
  signals_own w0 -> signals_own w.
Proof.
  intros HP Hthis Hheap (tr & Htrace & Hall) [Hids Htr].
  unfold signals_own. rewrite Hthis, Htrace. split.
  - eapply Forall_impl; [exact Hids|]. intros p. unfold owned. rewrite Hheap. auto.
  - apply Forall_app. split.
    + eapply Forall_impl; [exact Htr|]. intros e. apply own_signal_heap, Hheap.
    + eapply Forall_impl; [exact Hall|]. intros e He.
      apply (own_signal_heap w0 w e Hheap), HP, He.
Qed.

Lemma own_killOrphanedProcesses env w :
  signals_own w ->
  wp (killOrphanedProcesses env) (fun _ => signals_own) (fun _ => False) w.
Proof.
  intros H. wp_apply (killOrphanedProcesses_forced env w) as w1 H1.
  destruct H1 as (Hthis & Hheap & _ & Hg).
  apply (own_grown forced_kill_or_pgrep w w1); try assumption.
  intros [] He; try exact Logic.I. destruct sig; [discriminate He | exact Logic.I].
Qed.

Lemma own_forceStop env w :
  signals_own w -> wp (forceStop env) (fun _ => signals_own) (fun _ => False) w.
Proof.
  intros H. unfold forceStop. wp_run.
  wp_apply (own_killAllProcesses env true w H) as w1 H1. wp_run.
  wp_apply (own_killOrphanedProcesses env _ H1) as w2 H2. wp_run. exact H2.
Qed.

Lemma own_tryVLC env station w :
  signals_own w -> wp (tryVLC env station) (fun _ => signals_own) (fun _ => False) w.
Proof.
  intros H. unfold tryVLC. wp_run; auto 8 with own.
  repeat (apply own_alter; [intros []; reflexivity|]).
  apply own_push; [eapply owned_deref; eassumption | auto 8 with own].
Qed.

Lemma own_play_try env station w :
  signals_own w -> wp (play_try env station) (fun _ => signals_own) (fun _ => False) w.
Proof.
  intros H. unfold play_try. wp_run; auto 8 with own.
  - apply own_tryVLC. auto with own.
  - apply own_timers, own_effect; [exact Logic.I|].
    repeat (apply own_alter; [intros []; reflexivity|]).
    apply own_push; [eapply owned_deref; eassumption | auto 8 with own].
Qed.

Lemma own_play_begin env station w :
  signals_own w ->
  wp (play_begin env station) (fun _ => signals_own) (fun _ => False) w.
Proof.
  intros H. unfold play_begin. wp_run.
  wp_apply (own_stop env w H) as w1 H1. wp_run.
  apply own_play_try, own_station, H1.
Qed.

Lemma own_emit_error env h error w :
  signals_own w ->
  wp (emit_error env h error) (fun _ => signals_own) (fun _ => False) w.
Proof.
  intros H. unfold emit_error. wp_run.
  apply wp_for_of; [exact H|]. intros l w1 _ H1.
  destruct l; unfold run_onError; wp_run; auto 6 with own.
  apply own_tryVLC, H1.
Qed.

Lemma own_emit_exit h code w :
  signals_own w ->
  wp (emit_exit h code) (fun _ => signals_own) (fun _ => False) w.
Proof.
  intros H. unfold emit_exit. wp_run.
  apply wp_for_of; [auto with own|]. intros l w1 _ H1.
  destruct l. unfold run_onExit. wp_run; auto with own.
Qed.

Lemma own_fire_timer env w :
  signals_own w -> wp (fire_timer env) (fun _ => signals_own) (fun _ => False) w.
Proof.
  intros H. wp_apply (fire_timer_spec env w) as w1 H1.
  destruct H1 as (Hthis & Hheap & _ & Hg & _).
  apply (own_grown timer_effect w w1); try assumption.
  intros [] He; try exact Logic.I. destruct sig; [discriminate He | exact Logic.I].
Qed.

Lemma own_step env a w :
  signals_own w -> wp (step env a) (fun _ => signals_own) (fun _ => False) w.
Proof.
  intros H. destruct a; simpl.
  - apply own_play_begin, H.
  - apply own_stop, H.
  - apply own_forceStop, H.
  - unfold searchStations. wp_run; auto 6 with own.
  - unfold searchByGenre. wp_run; auto 6 with own.
  - apply own_emit_error, H.
  - apply own_emit_exit, H.
  - apply own_fire_timer, H.
Qed.

Lemma signals_own_initial : signals_own initial.
Proof. split; constructor. Qed.

(** X9: whom the player asks to terminate.  In every world that a
    program can reach, by any calls of [play], [stop], [forceStop] and the
    searches, any events of the processes and any timers, in any
    environment: every tracked identifier is the non-zero pid of a
    [ChildProcess] that the player launched itself, and every SIGTERM
    sent so far went to the group of such a process.  The player never
    sends SIGTERM to a process it did not launch. *)
Theorem sigterm_only_to_own_groups env w :
  reachable env w -> signals_own w.
Proof.
  induction 1 as [|w a _ IH]; [exact signals_own_initial|].
  exact (proj2 (wp_total_elim _ _ _ (own_step env a w IH))).
Qed.

Lemma sigterm_only_to_own_groups_witness :
  signals_own
    (snd (step healthy CallStop (snd (step healthy (CallPlay test_fm) initial)))).
Proof.
  apply (sigterm_only_to_own_groups healthy).
  apply reachable_step, reachable_step, reachable_initial.
Defined.

(** ** The pending timers of a stopped player *)

Lemma fire_timer_idle env w :
  currentProcess (this w) = None ->
  wp (fire_timer env)
     (fun _ w' =>
        this w' = this w /\ heap w' = heap w /\ timers w' = tail (timers w) /\
        trace w' = trace w ++ flat_map timer_kill (firstn 1 (timers w)))
     (fun _ => False) w.
Proof.
  intros Hcp. unfold fire_timer. wp_run.
  destruct (timers w) as [|t q] eqn:Hq; wp_run.
  - rewrite Hq, app_nil_r. repeat split; reflexivity.
  - destruct t as [station| |z]; unfold run_timer, play_resume; wp_run;
      simpl in *; try congruence;
      rewrite ?Hq, ?app_nil_r; repeat split; reflexivity.
Qed.

Lemma drain_idle env ts :
  forall w, timers w = ts -> currentProcess (this w) = None ->
    wp (exec env (repeat FireTimer (length ts)))
       (fun _ w' =>
          this w' = this w /\ heap w' = heap w /\ timers w' = [] /\
          trace w' = trace w ++ flat_map timer_kill ts)
       (fun _ => False) w.
Proof.
  induction ts as [|t q IH]; intros w Hw Hcp; unfold exec; simpl.
  - rewrite app_nil_r. repeat split; try reflexivity. exact Hw.
  - apply wp_bind. wp_apply (fire_timer_idle env w Hcp) as w1 H1.
    destruct H1 as (A1 & A2 & A3 & A4). rewrite Hw in A3, A4. simpl in A3, A4.
    assert (Hcp1 : currentProcess (this w1) = None) by (rewrite A1; exact Hcp).
    eapply wp_mono; [apply (IH w1 A3 Hcp1) | | intros w2 []].
    intros [] w2 (B1 & B2 & B3 & B4).
    split; [rewrite B1; exact A1|]. split; [rewrite B2; exact A2|].
    split; [exact B3|]. rewrite B4, A4, app_nil_r, <- app_assoc. reflexivity.
Qed.

(** X10: the pending timers of a player without current process (as
    after [stop] or [forceStop]).  When they fire, each deferred kill of a
    tracked identifier sends SIGKILL to its group, whatever becomes of the
    signal; the deferred kill of the current process finds none and sends
    nothing; the continuation of a [play] that was stopped during its
    delay prints nothing.  Nothing throws, the player is unchanged and no
    timer is left. *)
Theorem idle_timers_only_force env w :
  currentProcess (this w) = None ->
  fst (drain env w) = Normal tt /\
  this (snd (drain env w)) = this w /\
  heap (snd (drain env w)) = heap w /\
  timers (snd (drain env w)) = [] /\
  trace (snd (drain env w)) = trace w ++ flat_map timer_kill (timers w).
Proof.
  intros Hcp. unfold drain.
  exact (wp_total_elim _ _ _ (drain_idle env (timers w) w eq_refl Hcp)).
Qed.

Lemma idle_timers_only_force_witness :
  let w := snd (step healthy CallStop (snd (step healthy (CallPlay test_fm) initial))) in
  timers w = [PlayResume test_fm; KillCurrentGroup; KillGroup 1000] /\
  fst (drain healthy w) = Normal tt /\
  this (snd (drain healthy w)) = this w /\
  heap (snd (drain healthy w)) = heap w /\
  timers (snd (drain healthy w)) = [] /\
  trace (snd (drain healthy w)) = trace w ++ [ProcessKill (-1000) SIGKILL].
Proof.
  split; [reflexivity|].
  apply (idle_timers_only_force healthy
           (snd (step healthy CallStop (snd (step healthy (CallPlay test_fm) initial))))).
  reflexivity.
Defined.

(** ** What a call of [play] launches *)

Lemma spawns_signals t kills :
  Forall (fun e => signal_or_timer e = true) kills -> spawns (t ++ kills) = spawns t.
Proof.
  intros H. unfold spawns. rewrite List.filter_app.
  induction H as [|e kills He _ IH]; simpl; [apply app_nil_r|].
  destruct e; try discriminate He; exact IH.
Qed.

Lemma tryVLC_launch env station w :
  wp (tryVLC env station)
     (fun _ w' =>
        currentStation (this w') = currentStation (this w) /\
        spawns (trace w') = spawns (trace w) ++ [Spawn "vlc" (vlc_args station)])
     (fun _ => False) w.
Proof.
  unfold tryVLC. wp_run; simpl; rewrite ?spawns_snoc; split; reflexivity.
Qed.

Lemma play_try_launch env station w :
  wp (play_try env station)
     (fun _ w' =>
        currentStation (this w') = currentStation (this w) /\
        spawns (trace w')
        = spawns (trace w) ++ Spawn "mpv" (mpv_args station)
            :: fallback_launch station
                 (spawn_result env (trace w) "mpv" (mpv_args station)))
     (fun _ => False) w.
Proof.
  unfold play_try. apply wp_try_catch, wp_bind, wp_spawn_cases.
  - intros e He e'. rewrite He. wp_run.
    wp_apply (tryVLC_launch env station) as w1 H1.
    destruct H1 as [Hst Hsp]. split; [exact Hst|].
    rewrite Hsp. simpl. rewrite !spawns_snoc. simpl.
    rewrite <- app_assoc. reflexivity.
  - intros p Hp. rewrite Hp. wp_run; simpl; rewrite ?spawns_snoc; split; reflexivity.
Qed.

(** X11: what a call of [play] launches before it waits.  It launches
    mpv once; when [spawn] throws for mpv it reports the failure and
    launches vlc once, and otherwise it launches nothing else.  The call
    does not throw (not even when [spawn] throws for vlc too) and the
    station is recorded in each case. *)
Theorem play_launches env station w :
  fst (play_begin env station w) = Normal tt /\
  getCurrentStation (snd (play_begin env station w)) = Some station /\
  spawns (trace (snd (play_begin env station w)))
  = spawns (trace w) ++ Spawn "mpv" (mpv_args station)
      :: fallback_launch station
           (spawn_result env (trace (snd (stop env w))) "mpv" (mpv_args station)).
Proof.
  pose proof (wp_total_elim _ _ _ (stop_terminates env w))
    as (Hstop & _ & _ & kills & Hk & Hall & _).
  unfold play_begin, bind.
  destruct (stop env w) as [c w1]. simpl in Hstop, Hk. subst c.
  change (set_currentStation (Some station) w1)
    with (Normal tt, with_this (put_currentStation (Some station)) w1).
  cbv beta iota.
  pose proof (wp_total_elim _ _ _
                (play_try_launch env station
                   (with_this (put_currentStation (Some station)) w1)))
    as (Hc & Hst & Hsp).
  split; [exact Hc|]. split; [exact Hst|].
  rewrite Hsp. simpl. rewrite Hk, spawns_signals by exact Hall. reflexivity.
Qed.

(** ** An error event after [stop] *)

Lemma tryVLC_restarts env station w :
  (forall t, exists p, spawn_result env t "vlc" (vlc_args station) = Spawned p) ->
  wp (tryVLC env station)
     (fun _ w' =>
        currentStation (this w') = currentStation (this w) /\
        currentProcess (this w') <> None /\
        In (Spawn "vlc" (vlc_args station)) (trace w'))
     (fun _ => False) w.
Proof.
  intros Hvlc. unfold tryVLC. apply wp_try_catch, wp_bind, wp_spawn_cases.
  - intros e He. destruct (Hvlc (trace w)) as [p Hp]. rewrite Hp in He. discriminate He.
  - intros p _. wp_run; simpl; (split; [reflexivity|]); (split; [discriminate|]);
      apply in_or_app; right; left; reflexivity.
Qed.

(** A listener neither clears the current process nor sets a station. *)
Lemma run_onError_keeps env l error w :
  wp (run_onError env l error)
     (fun _ w' =>
        currentStation (this w') = currentStation (this w) /\
        (currentProcess (this w) <> None -> currentProcess (this w') <> None) /\
        (forall e, In e (trace w) -> In e (trace w')))
     (fun _ => False) w.
Proof.
  destruct l; unfold run_onError, tryVLC; wp_run; simpl;
    (split; [reflexivity|]); (split; [try discriminate; auto|]);
    intros x Hx; rewrite ?in_app_iff; auto.
Qed.

Lemma emit_error_restarts env station error ls :
  includes "ENOENT" (message error) = true ->
  (forall t, exists p, spawn_result env t "vlc" (vlc_args station) = Spawned p) ->
  In (PlayOnError station) ls ->
  forall w, currentStation (this w) = None ->
    wp (for_of ls (fun l => run_onError env l error))
       (fun _ w' =>
          currentStation (this w') = None /\
          currentProcess (this w') <> None /\
          In (Spawn "vlc" (vlc_args station)) (trace w'))
       (fun _ => False) w.
Proof.
  intros Herr Hvlc. induction ls as [|l ls IH]; intros Hin w Hst; [destruct Hin|].
  simpl. apply wp_bind. destruct Hin as [-> | Hin].
  - simpl. rewrite Herr.
    wp_apply (tryVLC_restarts env station w Hvlc) as w1 H1.
    destruct H1 as (A1 & A2 & A3).
    apply wp_for_of; [repeat split; [rewrite A1; exact Hst | exact A2 | exact A3]|].
    intros l w2 _ (B1 & B2 & B3).
    wp_apply (run_onError_keeps env l error w2) as w3 H3.
    destruct H3 as (C1 & C2 & C3).
    repeat split; [rewrite C1; exact B1 | apply C2, B2 | apply C3, B3].
  - wp_apply (run_onError_keeps env l error w) as w1 H1.
    destruct H1 as (A1 & _ & _). apply (IH Hin). rewrite A1. exact Hst.
Qed.

(** X12: the listener for ['error'] that [play] attaches to the mpv
    process stays attached after [stop].  When that process reports that
    the binary was not found only after [stop()] has returned, the
    listener launches vlc all the same: the player then has a current
    process again ([isPlaying()] is true) for no station
    ([getCurrentStation()] is null). *)
Theorem late_error_restarts_playback env station h error w :
  reachable env w ->
  In (PlayOnError station) (onError (deref w h)) ->
  includes "ENOENT" (message error) = true ->
  (forall t, exists p, spawn_result env t "vlc" (vlc_args station) = Spawned p) ->
  isPlaying (snd (step env (EmitError h error) (snd (step env CallStop w)))) = true /\
  getCurrentStation (snd (step env (EmitError h error) (snd (step env CallStop w)))) = None /\
  In (Spawn "vlc" (vlc_args station))
     (trace (snd (step env (EmitError h error) (snd (step env CallStop w))))).
Proof.
  intros Hr Hl Herr Hvlc.
  assert (Hr' : reachable env
                  (snd (step env (EmitError h error) (snd (step env CallStop w)))))
    by (apply reachable_step, reachable_step, Hr).
  rewrite (isPlaying_reachable env _ Hr'). unfold getCurrentStation.
  pose proof (wp_total_elim _ _ _ (stop_clears env w)) as (_ & Hthis & Hheap).
  change (step env CallStop w) with (stop env w).
  assert (Hls : onError (deref (snd (stop env w)) h) = onError (deref w h))
    by (unfold deref; rewrite Hheap; reflexivity).
  apply (wp_total_elim _
           (fun _ w' => currentProcess (this w') <> None /\
                        currentStation (this w') = None /\
                        In (Spawn "vlc" (vlc_args station)) (trace w'))).
  change (step env (EmitError h error)) with (emit_error env h error).
  unfold emit_error. wp_run. rewrite Hls.
  wp_apply (emit_error_restarts env station error (onError (deref w h)) Herr Hvlc Hl)
    as w1 H1.
  - simpl. rewrite Hthis. reflexivity.
  - destruct H1 as (A1 & A2 & A3). repeat split; assumption.
Qed.

Lemma late_error_restarts_playback_witness :
  let w := snd (step no_player (EmitError 0 (ENOENT "mpv"))
                  (snd (step no_player CallStop
                          (snd (step no_player (CallPlay test_fm) initial))))) in
  isPlaying w = true /\
  getCurrentStation w = None /\
  In (Spawn "vlc" (vlc_args test_fm)) (trace w).
Proof.
  apply (late_error_restarts_playback no_player test_fm 0 (ENOENT "mpv")
           (snd (step no_player (CallPlay test_fm) initial))).
  - apply reachable_step, reachable_initial.
  - left. reflexivity.
  - reflexivity.
  - intros t. exists None. reflexivity.
Defined.

(** ** The announcement of [play] *)

Lemma announced_grow w0 w1 w2 :
  announced w0 w1 -> grown_by any_effect w1 w2 -> announced w0 w2.
Proof.
  intros (t1 & H1 & Hin) (t2 & H2 & _). exists (t1 ++ t2). split.
  - rewrite H2, H1, app_assoc. reflexivity.
  - apply in_or_app. left. exact Hin.
Qed.

Lemma announced_now w0 w :
  grown_by any_effect w0 w ->
  announced w0 (with_trace (fun t => t ++ [ConsoleLog ["✅ Now playing!"]]) w).
Proof.
  intros (tr & Htr & _). exists (tr ++ [ConsoleLog ["✅ Now playing!"]]). simpl. split.
  - rewrite Htr, app_assoc. reflexivity.
  - apply in_or_app. right. left. reflexivity.
Qed.

Lemma step_grows env a w : grown_by any_effect w (snd (step env a w)).
Proof.
  apply (wp_total_elim _ (fun _ w' => grown_by any_effect w w')).
  apply (stable_step env (grown_by any_effect w) any_effect); auto.
  - intros w1 e _ H. apply grown_by_snoc; [reflexivity | exact H].
  - apply grown_by_refl.
Qed.

Lemma wp_intro (m : Js unit) (Q : unit -> World -> Prop) E w :
  fst (m w) = Normal tt -> Q tt (snd (m w)) -> wp m Q E w.
Proof.
  unfold wp. destruct (m w) as [c w']. simpl. intros -> H. exact H.
Qed.

(** A listener for ['error'] sets no timer and clears no current
    process. *)
Lemma run_onError_frame env l error w :
  wp (run_onError env l error)
     (fun _ w' =>
        timers w' = timers w /\
        (currentProcess (this w) <> None -> currentProcess (this w') <> None))
     (fun _ => False) w.
Proof.
  destruct l; unfold run_onError, tryVLC; wp_run; simpl;
    (split; [reflexivity|]); try discriminate; auto.
Qed.

Lemma emit_error_frame env h error w :
  wp (emit_error env h error)
     (fun _ w' =>
        timers w' = timers w /\
        (currentProcess (this w) <> None -> currentProcess (this w') <> None))
     (fun _ => False) w.
Proof.
  unfold emit_error. wp_run.
  apply wp_for_of; [split; [reflexivity | auto]|].
  intros l w1 _ [A1 A2].
  wp_apply (run_onError_frame env l error w1) as w2 H2. destruct H2 as [B1 B2].
  split; [rewrite B1; exact A1 | auto].
Qed.

Lemma emit_exit_frame h code w :
  wp (emit_exit h code)
     (fun _ w' => timers w' = timers w /\ this w' = this w)
     (fun _ => False) w.
Proof.
  unfold emit_exit. wp_run.
  apply wp_for_of; [split; reflexivity|].
  intros l w1 _ [A1 A2]. destruct l. unfold run_onExit.
  wp_run; simpl; split; assumption.
Qed.

(** The continuation of a [play] announces, whichever station it is
    for, when there is a current process. *)
Lemma fire_timer_announces env w :
  unkilled w -> currentProcess (this w) <> None ->
  wp (fire_timer env)
     (fun _ w' =>
        timers w' = tail (timers w) /\ this w' = this w /\
        forall t, head (timers w) = Some t -> is_resume t = true ->
                  announced w w')
     (fun _ => False) w.
Proof.
  intros Hu Hcp.
  assert (Hann : wp (fire_timer env)
                   (fun _ w' => forall t, head (timers w) = Some t ->
                                          is_resume t = true -> announced w w')
                   (fun _ => False) w).
  { unfold fire_timer. wp_run. destruct (timers w) as [|t q]; wp_run.
    - intros t Ht. discriminate Ht.
    - destruct t as [station| |z].
      + unfold run_timer, play_resume. wp_run; simpl in *.
        * intros t Ht _. apply announced_now. exists [].
          split; [symmetry; apply app_nil_r | constructor].
        * rewrite deref_with_timers, (unkilled_deref w _ Hu) in H. discriminate H.
        * contradiction.
      + eapply wp_mono;
          [apply (stable_run_timer env (fun _ => True) any_effect); auto
          | cbv beta; intros ? w1 _ t Ht Hres; injection Ht as <-; discriminate Hres
          | cbv beta; intros ? []].
      + eapply wp_mono;
          [apply (stable_run_timer env (fun _ => True) any_effect); auto
          | cbv beta; intros ? w1 _ t Ht Hres; injection Ht as <-; discriminate Hres
          | cbv beta; intros ? []]. }
  eapply wp_mono;
    [exact (wp_conj _ _ _ _ _ _ (fire_timer_spec env w) Hann)
    | cbv beta; intros [] w1 [(A1 & _ & A3 & _) A] | cbv beta; intros w1 [[] _]].
  repeat split; assumption.
Qed.

Lemma awaiting_fire_timer env w0 w :
  awaiting env w0 w ->
  awaiting env w0 (snd (fire_timer env w)) /\
  timers (snd (fire_timer env w)) = tail (timers w) /\
  (forall t, head (timers w) = Some t -> is_resume t = true ->
             announced w0 (snd (fire_timer env w))).
Proof.
  intros (Hr & Hcp & Hg & Hres).
  pose proof (wp_total_elim _ _ _
                (fire_timer_announces env w (unkilled_reachable env w Hr) Hcp))
    as (_ & Htl & Hthis & Hann).
  pose proof (step_grows env FireTimer w) as Hstep.
  change (step env FireTimer w) with (fire_timer env w) in Hstep.
  assert (Hann0 : forall t, head (timers w) = Some t -> is_resume t = true ->
                            announced w0 (snd (fire_timer env w))).
  { intros t Ht Hrt. destruct (Hann t Ht Hrt) as (t1 & H1 & Hin).
    destruct Hg as (t0 & H0 & _). exists (t0 ++ t1). split.
    - rewrite H1, H0, app_assoc. reflexivity.
    - apply in_or_app. right. exact Hin. }
  split; [|split; [exact Htl | exact Hann0]].
  split; [exact (reachable_step env w FireTimer Hr)|].
  split; [rewrite Hthis; exact Hcp|].
  split; [eapply grown_by_trans; eassumption|].
  destruct Hres as [Hres | Hres]; [|right; eapply announced_grow; eassumption].
  rewrite Htl. destruct (timers w) as [|t q]; [discriminate Hres|].
  simpl in Hres |- *. destruct (is_resume t) eqn:Ht.
  - right. apply (Hann0 t eq_refl Ht).
  - left. exact Hres.
Qed.

Lemma awaiting_async env w0 a w :
  is_async a = true -> awaiting env w0 w -> awaiting env w0 (snd (step env a w)).
Proof.
  intros Ha H. destruct a; try discriminate Ha.
  - destruct H as (Hr & Hcp & Hg & Hres).
    pose proof (wp_total_elim _ _ _ (emit_error_frame env h error w)) as (_ & Ht & Hkeep).
    pose proof (step_grows env (EmitError h error) w) as Hstep.
    split; [exact (reachable_step env w _ Hr)|]. simpl step in *.
    split; [apply Hkeep, Hcp|].
    split; [eapply grown_by_trans; eassumption|].
    destruct Hres as [Hres | Hres];
      [left; rewrite Ht; exact Hres | right; eapply announced_grow; eassumption].
  - destruct H as (Hr & Hcp & Hg & Hres).
    pose proof (wp_total_elim _ _ _ (emit_exit_frame h code w)) as (_ & Ht & Hthis).
    pose proof (step_grows env (EmitExit h code) w) as Hstep.
    split; [exact (reachable_step env w _ Hr)|]. simpl step in *.
    split; [rewrite Hthis; exact Hcp|].
    split; [eapply grown_by_trans; eassumption|].
    destruct Hres as [Hres | Hres];
      [left; rewrite Ht; exact Hres | right; eapply announced_grow; eassumption].
  - apply (awaiting_fire_timer env w0 w H).
Qed.

Lemma awaiting_exec env w0 during w :
  Forall (fun a => is_async a = true) during ->
  awaiting env w0 w ->
  wp (exec env during) (fun _ => awaiting env w0) (fun _ => False) w.
Proof.
  intros Hall H. unfold exec. apply wp_for_of; [exact H|].
  intros a w1 Ha H1. apply wp_intro; [apply step_returns|].
  apply awaiting_async; [|exact H1].
  rewrite Forall_forall in Hall. apply Hall, Ha.
Qed.

Lemma fire_timer_returns env w : fst (fire_timer env w) = Normal tt.
Proof. exact (step_returns env FireTimer w). Qed.

Lemma awaiting_through_resume env w0 pending :
  forall w, timers w = pending -> existsb is_resume pending = true ->
    awaiting env w0 w ->
    wp (fire_through_resume env pending) (fun _ => announced w0) (fun _ => False) w.
Proof.
  induction pending as [|t q IH]; intros w Hw Hres H; [discriminate Hres|].
  simpl. apply wp_bind.
  destruct (awaiting_fire_timer env w0 w H) as (H1 & Htl & Hann).
  apply wp_intro; [apply fire_timer_returns|].
  rewrite Hw in Htl. simpl in Htl.
  destruct (existsb is_resume q) eqn:Hq.
  - apply (IH _ Htl eq_refl H1).
  - apply wp_ret. destruct H1 as (_ & _ & _ & [Hr | Ha]); [|exact Ha].
    rewrite Htl, Hq in Hr. discriminate Hr.
Qed.

Lemma awaiting_await_resume env w0 w :
  awaiting env w0 w ->
  wp (await_resume env) (fun _ => announced w0) (fun _ => False) w.
Proof.
  intros H. unfold await_resume. apply wp_bind, wp_gets.
  destruct (existsb is_resume (timers w)) eqn:Hres.
  - apply (awaiting_through_resume env w0 (timers w) w eq_refl Hres H).
  - apply wp_ret. destruct H as (_ & _ & _ & [Hr | Ha]); [|exact Ha].
    rewrite Hr in Hres. discriminate Hres.
Qed.

(** When [spawn] returns an object for mpv, [play_try] leaves it as the
    current process and the continuation of [play] pending. *)
Lemma play_try_awaits env station p w :
  spawn_result env (trace w) "mpv" (mpv_args station) = Spawned p ->
  wp (play_try env station)
     (fun _ w' => currentProcess (this w') <> None /\
                  existsb is_resume (timers w') = true)
     (fun _ => False) w.
Proof.
  intros Hs. unfold play_try. apply wp_try_catch, wp_bind, wp_spawn_cases.
  - intros e He. rewrite Hs in He. discriminate He.
  - intros p' _. wp_run; simpl; (split; [discriminate|]);
      rewrite existsb_app; simpl; apply orb_true_r.
Qed.

(** X13: the announcement.  When [spawn] returns an object for mpv, the
    awaited [play] prints [Now playing!], whatever the processes do
    during the delay: whether or not the object has a pid, whether mpv or
    vlc report errors or exit, in whatever order the timers fire.  The
    announcement tells that an object was created, not that a station is
    heard. *)
Theorem play_announces_whenever_spawned env station during p w :
  reachable env w ->
  Forall (fun a => is_async a = true) during ->
  spawn_result env (trace (snd (stop env w))) "mpv" (mpv_args station) = Spawned p ->
  fst (play env station during w) = Normal tt /\
  announced w (snd (play env station during w)).
Proof.
  intros Hr Hall Hs.
  apply (wp_total_elim _ (fun _ w' => announced w w')).
  unfold play. apply wp_bind.
  apply wp_intro; [apply (step_returns env (CallPlay station))|].
  assert (Hw1 : awaiting env w (snd (play_begin env station w))).
  { split; [exact (reachable_step env w (CallPlay station) Hr)|].
    assert (Hg := step_grows env (CallPlay station) w).
    cut (currentProcess (this (snd (play_begin env station w))) <> None /\
         existsb is_resume (timers (snd (play_begin env station w))) = true).
    { intros [A B]. split; [exact A|]. split; [exact Hg | left; exact B]. }
    pose proof (wp_total_elim _ _ _ (stop_clears env w)) as (Hstop & _).
    unfold play_begin, bind. destruct (stop env w) as [c w1]. simpl in Hstop, Hs.
    subst c.
    change (set_currentStation (Some station) w1)
      with (Normal tt, with_this (put_currentStation (Some station)) w1).
    cbv beta iota.
    exact (proj2 (wp_total_elim _ _ _
                    (play_try_awaits env station p
                       (with_this (put_currentStation (Some station)) w1) Hs))). }
  apply wp_bind. wp_apply (awaiting_exec env w during _ Hall Hw1) as w2 H2.
  apply awaiting_await_resume, H2.
Qed.

Lemma play_announces_whenever_spawned_witness :
  fst (play no_player test_fm
         [EmitError 0 (ENOENT "mpv"); EmitError 1 (ENOENT "vlc")] initial) = Normal tt /\
  announced initial
    (snd (play no_player test_fm
            [EmitError 0 (ENOENT "mpv"); EmitError 1 (ENOENT "vlc")] initial)).
Proof.
  apply (play_announces_whenever_spawned no_player test_fm
           [EmitError 0 (ENOENT "mpv"); EmitError 1 (ENOENT "vlc")] None initial).
  - apply reachable_initial.
  - repeat constructor.
  - reflexivity.
Defined.
